(** * The MCP client registry (server/services/mcp_client_registry.py)

    A shallow embedding of [MCPClientRegistry]: the four operations
    [mark_connected], [mark_disconnected], [list_all] and [exists] over the
    [mcp_clients] table, with the Supabase client and the wall clock made
    explicit as the state the operations are threaded through. *)

From Stdlib Require Import String Ascii List Arith Lia.
From stdpp Require Import base option list gmap strings sorting.

Local Open Scope string_scope.
Local Open Scope list_scope.

(** ** Values and rows *)

(** The Python values a row of [mcp_clients] holds.  A timestamp is the ISO
    string [_now_iso] produces; it is kept as the instant it denotes (a
    number of clock units since the epoch), which is the order in which such
    strings compare.  A capabilities document is a dict with string keys. *)
Inductive val :=
| VNone
| VStr (s : string)
| VTime (t : nat)
| VDict (d : gmap string string).

#[global] Instance val_eq_dec : EqDecision val.
Proof. solve_decision. Defined.

(** A row, an update payload and an insert payload are all Python dicts. *)
Abbreviation dict := (gmap string val).

(** [row.get(k)]: the value, or [None] when the key is missing. *)
Definition get (row : dict) (k : string) : val := default VNone (row !! k).

(** An [Optional[str]] argument as a Python value. *)
Definition of_str (o : option string) : val :=
  match o with Some s => VStr s | None => VNone end.

(** [capabilities or {}]: the argument when it is truthy (a non-empty dict),
    the empty dict otherwise. *)
Definition or_empty (o : option (gmap string string)) : gmap string string :=
  match o with
  | Some d => if decide (d = ∅) then ∅ else d
  | None => ∅
  end.

(** The dataclass [MCPClient].  Python does not enforce the annotations: a
    field holds whatever [row.get] returned. *)
Record MCPClient := {
  display_name : val;
  status : val;
  client_id : val;
  last_seen : val;
  first_seen : val;
  last_seen_version : val;
  capabilities : val
}.

Definition _to_model (row : dict) : MCPClient :=
  {| display_name := get row "display_name";
     status := get row "status";
     client_id := get row "client_id";
     last_seen := get row "last_seen";
     first_seen := get row "first_seen";
     last_seen_version := get row "last_seen_version";
     capabilities := get row "capabilities" |}.

(** ** The world: table, clock and backend faults *)

(** What happens to one [execute()] round trip.  [Lost]: the request fails
    before the backend applied it.  [Late]: the backend applied it and the
    response was lost.  Either way the client raises. *)
Inductive fault := Healthy | Lost | Late.

#[global] Instance fault_eq_dec : EqDecision fault.
Proof. solve_decision. Defined.

(** [table]: the rows of [mcp_clients] in storage order.  [clock]: what the
    next reading of the wall clock returns; [ticks]: by how much the clock
    advances after each of the coming readings.  [faults]: the fate of each
    of the coming round trips (none listed: healthy). *)
Record World := {
  table : list dict;
  clock : nat;
  ticks : list nat;
  faults : list fault
}.

(** ** Computations that read the clock, talk to the backend and may raise *)

Inductive outcome (A : Type) :=
| Return (a : A)
| Raise.
Arguments Return {A} a.
Arguments Raise {A}.

Definition Py (A : Type) : Type := World → outcome A * World.

#[global] Instance Py_ret : MRet Py := λ A a w, (Return a, w).

#[global] Instance Py_bind : MBind Py := λ A B f m w,
  match m w with
  | (Return a, w') => f a w'
  | (Raise, w') => (Raise, w')
  end.

(** [try: body  except Exception: handler]. *)
Definition try_except {A} (body handler : Py A) : Py A := λ w,
  match body w with
  | (Return a, w') => (Return a, w')
  | (Raise, w') => handler w'
  end.

(** [datetime.now(timezone.utc).isoformat()]. *)
Definition _now_iso : Py val := λ w,
  (Return (VTime (clock w)),
   {| table := table w;
      clock := clock w + hd 0 (ticks w);
      ticks := tl (ticks w);
      faults := faults w |}).

(** ** The Supabase table *)

(** One round trip.  [q] is the request: from the table, the rows it answers
    with and the table it leaves. *)
Definition set_table (t : list dict) (w : World) : World :=
  {| table := t; clock := clock w; ticks := ticks w; faults := faults w |}.

Definition pop_fault (w : World) : World :=
  {| table := table w; clock := clock w; ticks := ticks w; faults := tl (faults w) |}.

Definition execute (q : list dict → list dict * list dict) : Py (list dict) := λ w,
  match hd Healthy (faults w) with
  | Healthy => (Return (q (table w)).1, set_table (q (table w)).2 (pop_fault w))
  | Lost => (Raise, pop_fault w)
  | Late => (Raise, set_table (q (table w)).2 (pop_fault w))
  end.

(** [.eq(col, v)] on a row. *)
Definition matches (col v : string) (row : dict) : bool :=
  bool_decide (row !! col = Some (VStr v)).

(** [.select(cols)]: ["*"] is [None]. *)
Definition project (cols : option (list string)) (row : dict) : dict :=
  match cols with
  | None => row
  | Some cs => list_to_map (omap (λ c, (c,.) <$> row !! c) cs)
  end.

(** [.select(cols).eq(col, v).limit(n).execute()]. *)
Definition select_eq (cols : option (list string)) (col v : string) (n : nat)
  : Py (list dict) :=
  execute (λ t, (take n (project cols <$> filter (λ r, matches col v r = true) t), t)).

(** [.update(payload).eq(col, v).execute()]: the payload is merged into each
    matching row; the updated rows are returned. *)
Definition apply_update (payload : dict) (col v : string) (row : dict) : dict :=
  if matches col v row then payload ∪ row else row.

Definition update_eq (payload : dict) (col v : string) : Py (list dict) :=
  execute (λ t, (apply_update payload col v <$> filter (λ r, matches col v r = true) t,
                apply_update payload col v <$> t)).

(** Modelled from the spec: the column defaults of the table [mcp_clients].
    Its schema (migration/add_mcp_clients_table.sql) is not part of the
    source file; the specification gives the column [status] the default
    connected and the column [capabilities] the default empty document, and
    no default to the other columns. *)
Definition column_defaults : dict :=
  <["status" := VStr "connected"]> {["capabilities" := VDict ∅]}.

(** The row an insert stores: the payload, and for each column the payload
    does not name the default of the column, when it has one. *)
Definition stored (payload : dict) : dict := payload ∪ column_defaults.

(** [.insert(payload).execute()]: the row is stored and returned. *)
Definition insert_row (payload : dict) : Py (list dict) :=
  execute (λ t, ([stored payload], t ++ [stored payload])).

(** A stable insertion sort, for the backend's [ORDER BY] and for Python's
    [list.sort]. *)
Fixpoint insert_sorted {A} (leb : A → A → bool) (x : A) (l : list A) : list A :=
  match l with
  | [] => [x]
  | y :: l' => if leb x y then x :: l else y :: insert_sorted leb x l'
  end.

Definition stable_sort {A} (leb : A → A → bool) (l : list A) : list A :=
  foldr (insert_sorted leb) [] l.

(** [.order(col, desc=True)]: most recent first, rows without a timestamp
    before the others. *)
Definition stamp (col : string) (row : dict) : option nat :=
  match row !! col with
  | Some (VTime t) => Some t
  | _ => None
  end.

Definition desc_leb (col : string) (r1 r2 : dict) : bool :=
  match stamp col r1, stamp col r2 with
  | None, _ => true
  | Some _, None => false
  | Some t1, Some t2 => Nat.leb t2 t1
  end.

Definition select_order_desc (col : string) : Py (list dict) :=
  execute (λ t, (stable_sort (desc_leb col) t, t)).

(** ** MCPClientRegistry *)

(** The update payload of [mark_connected] (the dict [update]): status and
    last_seen always, each optional field only when it was supplied. *)
Definition connected_update (now : val) (client_id version : option string)
    (capabilities : option (gmap string string)) : dict :=
  let update : dict := <["last_seen" := now]> {["status" := VStr "connected"]} in
  let update := match client_id with
                | Some c => <["client_id" := VStr c]> update
                | None => update
                end in
  let update := match version with
                | Some v => <["last_seen_version" := VStr v]> update
                | None => update
                end in
  match capabilities with
  | Some d => <["capabilities" := VDict d]> update
  | None => update
  end.

(** The insert payload of [mark_connected] (the dict [insert]). *)
Definition connected_insert (name : string) (now : val) (client_id version : option string)
    (capabilities : option (gmap string string)) : dict :=
  <["display_name" := VStr name]>
  (<["client_id" := of_str client_id]>
  (<["status" := VStr "connected"]>
  (<["first_seen" := now]>
  (<["last_seen" := now]>
  (<["last_seen_version" := of_str version]>
  {["capabilities" := VDict (or_empty capabilities)]}))))).

(** The body of the [try] of [mark_connected]. *)
Definition mark_connected_try (name : string) (client_id version : option string)
    (capabilities : option (gmap string string)) : Py MCPClient :=
  existing ← select_eq None "display_name" name 1;
  now ← _now_iso;
  match existing with
  | row :: _ =>
      let update := connected_update now client_id version capabilities in
      updated ← update_eq update "display_name" name;
      let row := match updated with
                 | r :: _ => r
                 | [] => update ∪ row
                 end in
      mret (_to_model row)
  | [] =>
      let insert := connected_insert name now client_id version capabilities in
      res ← insert_row insert;
      let row := match res with
                 | r :: _ => r
                 | [] => insert
                 end in
      mret (_to_model row)
  end.

(** The [except] branch of [mark_connected]: the keyword arguments are
    evaluated in the order they are written, [last_seen] before
    [first_seen], each with its own reading of the clock. *)
Definition mark_connected_except (name : string) (client_id version : option string)
    (capabilities : option (gmap string string)) : Py MCPClient :=
  ls ← _now_iso;
  fs ← _now_iso;
  mret {| display_name := VStr name;
          status := VStr "connected";
          client_id := of_str client_id;
          last_seen := ls;
          first_seen := fs;
          last_seen_version := of_str version;
          capabilities := VDict (or_empty capabilities) |}.

Definition mark_connected (name : string) (client_id version : option string)
    (capabilities : option (gmap string string)) : Py MCPClient :=
  try_except (mark_connected_try name client_id version capabilities)
             (mark_connected_except name client_id version capabilities).

(** The update and insert payloads of [mark_disconnected]. *)
Definition disconnected_update (now : val) : dict :=
  <["status" := VStr "disconnected"]> {["last_seen" := now]}.

Definition disconnected_insert (name : string) (now : val) : dict :=
  <["display_name" := VStr name]>
  (<["status" := VStr "disconnected"]>
  (<["first_seen" := now]>
  {["last_seen" := now]})).

Definition mark_disconnected_try (name : string) : Py (option MCPClient) :=
  now ← _now_iso;
  updated ← update_eq (disconnected_update now) "display_name" name;
  match updated with
  | r :: _ => mret (Some (_to_model r))
  | [] =>
      let insert := disconnected_insert name now in
      res ← insert_row insert;
      let row := match res with
                 | r :: _ => r
                 | [] => insert
                 end in
      mret (Some (_to_model row))
  end.

Definition mark_disconnected (name : string) : Py (option MCPClient) :=
  try_except (mark_disconnected_try name) (mret None).

(** The key of [rows.sort] in [list_all]:
    [(r.get("status") != "connected", r.get("display_name", ""))].
    Python orders such pairs lexicographically, [False] before [True] and
    strings by code point (byte order of their UTF-8 encoding), and raises
    TypeError when it has to order a string against a value that is not
    one.  Which pairs the sort orders depends on the runs it finds in the
    list; the model raises as soon as the [display_name] of one row is not
    a [VStr], which is more often than Python does, on tables that the text
    key [display_name] excludes. *)
Definition sort_key (r : dict) : option (bool * string) :=
  match default (VStr "") (r !! "display_name") with
  | VStr s => Some (bool_decide (get r "status" ≠ VStr "connected"), s)
  | _ => None
  end.

Definition key_leb (k1 k2 : bool * string) : bool :=
  match k1.1, k2.1 with
  | false, true => true
  | true, false => false
  | _, _ => String.leb k1.2 k2.2
  end.

(** [rows.sort(key=...)]: the key of every row is computed first, then the
    rows are sorted on their keys, stably. *)
Definition keyed (r : dict) : option ((bool * string) * dict) :=
  k ← sort_key r; Some (k, r).

Definition rows_sort (rows : list dict) : Py (list dict) :=
  match mapM keyed rows with
  | Some ks => mret (snd <$> stable_sort (λ a b, key_leb a.1 b.1) ks)
  | None => λ w, (Raise, w)
  end.

Definition list_all_try : Py (list MCPClient) :=
  rows ← select_order_desc "last_seen";
  rows ← rows_sort rows;
  mret (_to_model <$> rows).

Definition list_all : Py (list MCPClient) :=
  try_except list_all_try (mret []).

(** [bool(resp.data)]. *)
Definition exists_try (name : string) : Py bool :=
  resp ← select_eq (Some ["display_name"]) "display_name" name 1;
  mret (match resp with [] => false | _ :: _ => true end).

Definition exists_ (name : string) : Py bool :=
  try_except (exists_try name) (mret false).

(** Operations as data, to speak of sequences of calls. *)
Inductive op :=
| MarkConnected (name : string) (client_id version : option string)
    (capabilities : option (gmap string string))
| MarkDisconnected (name : string)
| ListAll
| Exists (name : string).

Definition step (w : World) (o : op) : World :=
  match o with
  | MarkConnected n c v k => (mark_connected n c v k w).2
  | MarkDisconnected n => (mark_disconnected n w).2
  | ListAll => (list_all w).2
  | Exists n => (exists_ n w).2
  end.

Definition run (ops : list op) (w : World) : World := foldl step w ops.

(** What a call answers, whichever operation it is. *)
Inductive answer :=
| Client (r : MCPClient)
| MaybeClient (r : option MCPClient)
| Clients (l : list MCPClient)
| Flag (b : bool).

Definition call (o : op) : Py answer :=
  match o with
  | MarkConnected n c v k => r ← mark_connected n c v k; mret (Client r)
  | MarkDisconnected n => r ← mark_disconnected n; mret (MaybeClient r)
  | ListAll => l ← list_all; mret (Clients l)
  | Exists n => b ← exists_ n; mret (Flag b)
  end.

(** ** Vocabulary of the statements *)

(** The stored records with a given [display_name]. *)
Definition named (name : string) (t : list dict) : list dict :=
  filter (λ r, matches "display_name" name r = true) t.

(** The next [n] round trips succeed. *)
Definition healthy (n : nat) (w : World) : Prop :=
  Forall (λ f, f = Healthy) (take n (faults w)).

#[global] Instance healthy_dec n w : Decision (healthy n w).
Proof. unfold healthy. apply _. Defined.

(** [first_seen <= last_seen] on a record: both are timestamps, in order. *)
Definition seen_in_order (r : MCPClient) : Prop :=
  match first_seen r, last_seen r with
  | VTime f, VTime l => (f ≤ l)%nat
  | _, _ => False
  end.

(** The sort key of [list_all] read off a record. *)
Definition model_key (r : MCPClient) : bool * string :=
  (bool_decide (status r ≠ VStr "connected"),
   match display_name r with VStr s => s | _ => "" end).

Definition model_le (r1 r2 : MCPClient) : Prop :=
  key_leb (model_key r1) (model_key r2) = true.

(** The identity of a record and the time it was first seen. *)
Definition born (row : dict) : option val * option val :=
  (row !! "display_name", row !! "first_seen").

(** No row holds a [display_name] that is not a string, so the keys of the
    sort can be ordered. *)
Definition sortable (t : list dict) : Prop :=
  Forall (λ r, is_Some (sort_key r)) t.

(** [execute()] raises during the call [o]: its first round trip fails, or
    the first succeeds and the second, when the call makes one, fails.
    [mark_connected] always makes two (a select, then an update or an
    insert); [mark_disconnected] makes a second one (the insert) only when
    its update matched no row; [list_all] and [exists] make one. *)
Definition trip_fails (n : nat) (w : World) : Prop :=
  nth n (faults w) Healthy ≠ Healthy.

Definition backend_fails (o : op) (w : World) : Prop :=
  match o with
  | MarkConnected _ _ _ _ => trip_fails 0 w ∨ trip_fails 1 w
  | MarkDisconnected n => trip_fails 0 w ∨ (named n (table w) = [] ∧ trip_fails 1 w)
  | ListAll | Exists _ => trip_fails 0 w
  end.

(** The record [mark_connected] builds in its [except] branch. *)
Definition fallback (name : string) (client_id version : option string)
    (capabilities : option (gmap string string)) (ls fs : nat) : MCPClient :=
  {| display_name := VStr name;
     status := VStr "connected";
     client_id := of_str client_id;
     last_seen := VTime ls;
     first_seen := VTime fs;
     last_seen_version := of_str version;
     capabilities := VDict (or_empty capabilities) |}.

(** A column of the table, row by row. *)
Definition column (c : string) (t : list dict) : list (option val) :=
  (λ row, row !! c) <$> t.

(** A stored row carries what a [mark_connected] call at time [now]
    writes: the status, the time, and each optional field that was
    supplied. *)
Definition carries (now : val) (client_id version : option string)
    (capabilities : option (gmap string string)) (row : dict) : Prop :=
  row !! "status" = Some (VStr "connected")
  ∧ row !! "last_seen" = Some now
  ∧ (∀ a, client_id = Some a → row !! "client_id" = Some (VStr a))
  ∧ (∀ a, version = Some a → row !! "last_seen_version" = Some (VStr a))
  ∧ (∀ d, capabilities = Some d → row !! "capabilities" = Some (VDict d)).

(** Every stored row has a string for [display_name], and no two rows share
    it: [display_name] is the key of the table. *)
Definition has_name (row : dict) : Prop :=
  ∃ s, row !! "display_name" = Some (VStr s).

Definition unique_names (t : list dict) : Prop :=
  ∀ n, (length (named n t) ≤ 1)%nat.

(** A stored row was first seen no later than it was last seen, and last
    seen no later than the clock reads. *)
Definition timely (now : nat) (row : dict) : Prop :=
  ∃ f l, row !! "first_seen" = Some (VTime f)
         ∧ row !! "last_seen" = Some (VTime l)
         ∧ (f ≤ l)%nat ∧ (l ≤ now)%nat.

(** Example states: a table with two connected clients and a disconnected
    one, stored in no particular order, and a table with one disconnected
    client; the backend answers. *)
Definition three_clients : World :=
  {| table := [connected_insert "C" (VTime 1) None None None;
               disconnected_insert "B" (VTime 2);
               connected_insert "A" (VTime 3) None None None];
     clock := 4; ticks := []; faults := [] |}.

Definition one_client : World :=
  {| table := [disconnected_insert "agent1" (VTime 1)];
     clock := 2; ticks := [1]; faults := [] |}.

(** The name a call writes under, if it writes at all. *)
Definition writes_name (o : op) : option string :=
  match o with
  | MarkConnected n _ _ _ | MarkDisconnected n => Some n
  | ListAll | Exists _ => None
  end.

(** The status of a stored row is one of the two the registry writes. *)
Definition valid_status (row : dict) : Prop :=
  row !! "status" = Some (VStr "connected") ∨ row !! "status" = Some (VStr "disconnected").

(** The number of [execute()] round trips a call makes. *)
Definition round_trips (o : op) (w : World) : nat :=
  match o with
  | MarkConnected _ _ _ _ =>
      match nth 0 (faults w) Healthy with Healthy => 2 | _ => 1 end
  | MarkDisconnected n =>
      match nth 0 (faults w) Healthy, named n (table w) with
      | Healthy, [] => 2
      | _, _ => 1
      end
  | ListAll | Exists _ => 1
  end.

(** * Properties *)

(** ** Round trips and clock readings *)

Lemma project_all (l : list dict) : project None <$> l = l.
Proof. induction l as [|r l IH]; [done|]. rewrite fmap_cons, IH. done. Qed.

Lemma healthy_S n w :
  healthy (S n) w ↔ hd Healthy (faults w) = Healthy ∧ healthy n (pop_fault w).
Proof.
  unfold healthy. simpl. destruct (faults w) as [|f fs]; simpl.
  - rewrite take_nil. split; [intros _; split; [done | constructor] | constructor].
  - rewrite Forall_cons. done.
Qed.

Lemma healthy_faults n w1 w2 : faults w1 = faults w2 → healthy n w1 → healthy n w2.
Proof. unfold healthy. by intros ->. Qed.

Lemma healthy_le n m w : (n ≤ m)%nat → healthy m w → healthy n w.
Proof.
  unfold healthy. intros Hle H.
  rewrite <- (Nat.min_l n m) by done. rewrite <- take_take.
  by apply Forall_take.
Qed.

Lemma execute_healthy q w :
  healthy 1 w →
  execute q w = (Return (q (table w)).1, set_table (q (table w)).2 (pop_fault w)).
Proof. intros [H _]%healthy_S. unfold execute. by rewrite H. Qed.

(** ** Reading the payloads *)

Lemma connected_insert_display_name name now c v k :
  connected_insert name now c v k !! "display_name" = Some (VStr name).
Proof. by vm_compute. Qed.

Lemma connected_insert_status name now c v k :
  connected_insert name now c v k !! "status" = Some (VStr "connected").
Proof. by vm_compute. Qed.

Lemma connected_insert_first_seen name now c v k :
  connected_insert name now c v k !! "first_seen" = Some now.
Proof. by vm_compute. Qed.

Lemma connected_insert_last_seen name now c v k :
  connected_insert name now c v k !! "last_seen" = Some now.
Proof. by vm_compute. Qed.

Lemma connected_insert_client_id name now c v k :
  connected_insert name now c v k !! "client_id" = Some (of_str c).
Proof. by vm_compute. Qed.

Lemma connected_insert_version name now c v k :
  connected_insert name now c v k !! "last_seen_version" = Some (of_str v).
Proof. by vm_compute. Qed.

Lemma connected_insert_capabilities name now c v k :
  connected_insert name now c v k !! "capabilities" = Some (VDict (or_empty k)).
Proof.
  unfold connected_insert. by rewrite !lookup_insert_ne, lookup_singleton_eq by done.
Qed.

Lemma disconnected_insert_display_name name now :
  disconnected_insert name now !! "display_name" = Some (VStr name).
Proof. by vm_compute. Qed.

Lemma disconnected_insert_status name now :
  disconnected_insert name now !! "status" = Some (VStr "disconnected").
Proof. by vm_compute. Qed.

Lemma disconnected_insert_first_seen name now :
  disconnected_insert name now !! "first_seen" = Some now.
Proof. by vm_compute. Qed.

Lemma disconnected_insert_last_seen name now :
  disconnected_insert name now !! "last_seen" = Some now.
Proof. by vm_compute. Qed.

Lemma disconnected_insert_bare name now :
  disconnected_insert name now !! "client_id" = None
  ∧ disconnected_insert name now !! "last_seen_version" = None
  ∧ disconnected_insert name now !! "capabilities" = None.
Proof. by vm_compute. Qed.

Lemma disconnected_update_status now :
  disconnected_update now !! "status" = Some (VStr "disconnected").
Proof. by vm_compute. Qed.

Lemma disconnected_update_last_seen now :
  disconnected_update now !! "last_seen" = Some now.
Proof. by vm_compute. Qed.

Lemma get_lookup (row : dict) c x : row !! c = Some x → get row c = x.
Proof. unfold get. by intros ->. Qed.

Lemma get_missing (row : dict) c : row !! c = None → get row c = VNone.
Proof. unfold get. by intros ->. Qed.

Lemma try_except_return {A} (body handler : Py A) w a w' :
  body w = (Return a, w') → try_except body handler w = (Return a, w').
Proof. unfold try_except. by intros ->. Qed.

(** ** The row an insert stores *)

Lemma stored_lookup (payload : dict) c x :
  payload !! c = Some x → stored payload !! c = Some x.
Proof. intros H. unfold stored. by apply lookup_union_Some_l. Qed.

(** The insert payload of [mark_connected] names every column that has a
    default: it is stored as it is. *)
Lemma connected_insert_defaults name now c v k :
  stored (connected_insert name now c v k) = connected_insert name now c v k.
Proof.
  unfold stored. apply map_eq. intros i.
  destruct (connected_insert name now c v k !! i) eqn:E.
  - by apply lookup_union_Some_l.
  - rewrite lookup_union_r by done. unfold column_defaults.
    destruct (decide (i = "status")) as [->|];
      [by rewrite connected_insert_status in E|].
    destruct (decide (i = "capabilities")) as [->|];
      [by rewrite connected_insert_capabilities in E|].
    by rewrite lookup_insert_ne, lookup_singleton_ne.
Qed.

Lemma stored_disconnected_display_name name now :
  stored (disconnected_insert name now) !! "display_name" = Some (VStr name).
Proof. apply stored_lookup, disconnected_insert_display_name. Qed.

Lemma stored_disconnected_status name now :
  stored (disconnected_insert name now) !! "status" = Some (VStr "disconnected").
Proof. apply stored_lookup, disconnected_insert_status. Qed.

Lemma stored_disconnected_first_seen name now :
  stored (disconnected_insert name now) !! "first_seen" = Some now.
Proof. apply stored_lookup, disconnected_insert_first_seen. Qed.

Lemma stored_disconnected_last_seen name now :
  stored (disconnected_insert name now) !! "last_seen" = Some now.
Proof. apply stored_lookup, disconnected_insert_last_seen. Qed.

(** The insert payload of [mark_disconnected] does not name
    [capabilities]: the row stored has the default of the column. *)
Lemma stored_disconnected_defaulted name now :
  stored (disconnected_insert name now) !! "client_id" = None
  ∧ stored (disconnected_insert name now) !! "last_seen_version" = None
  ∧ stored (disconnected_insert name now) !! "capabilities" = Some (VDict ∅).
Proof. by vm_compute. Qed.

(** ** The paths of [mark_connected] and [mark_disconnected] *)

Lemma named_head_matches name (t : list dict) row rest :
  named name t = row :: rest → matches "display_name" name row = true.
Proof.
  intros Hrow. assert (row ∈ named name t) as Hin by (rewrite Hrow; left).
  unfold named in Hin. by apply list_elem_of_filter in Hin as [? _].
Qed.

Lemma mark_connected_try_update name c v k w row rest :
  healthy 2 w → named name (table w) = row :: rest →
  let update := connected_update (VTime (clock w)) c v k in
  mark_connected_try name c v k w =
  (Return (_to_model (update ∪ row)),
   {| table := apply_update update "display_name" name <$> table w;
      clock := clock w + hd 0 (ticks w);
      ticks := tl (ticks w);
      faults := tl (tl (faults w)) |}).
Proof.
  intros [H1 [H2 _]%healthy_S]%healthy_S Hrow. simpl in H2.
  unfold mark_connected_try, mbind, Py_bind, select_eq, update_eq, execute, _now_iso.
  simpl. rewrite H1. simpl. rewrite project_all. fold (named name (table w)).
  rewrite Hrow. simpl. rewrite H2. simpl.
  fold (named name (table w)). rewrite Hrow, fmap_cons.
  unfold apply_update at 1. by rewrite (named_head_matches _ _ _ _ Hrow).
Qed.

Lemma mark_connected_try_insert name c v k w :
  healthy 2 w → named name (table w) = [] →
  let insert := connected_insert name (VTime (clock w)) c v k in
  mark_connected_try name c v k w =
  (Return (_to_model insert),
   {| table := table w ++ [insert];
      clock := clock w + hd 0 (ticks w);
      ticks := tl (ticks w);
      faults := tl (tl (faults w)) |}).
Proof.
  intros [H1 [H2 _]%healthy_S]%healthy_S Hrow. simpl in H2.
  unfold mark_connected_try, mbind, Py_bind, select_eq, insert_row, execute, _now_iso.
  simpl. rewrite H1. simpl. rewrite project_all. fold (named name (table w)).
  rewrite Hrow. simpl. rewrite H2. by rewrite connected_insert_defaults.
Qed.

Lemma mark_disconnected_try_update name w row rest :
  healthy 1 w → named name (table w) = row :: rest →
  let update := disconnected_update (VTime (clock w)) in
  mark_disconnected_try name w =
  (Return (Some (_to_model (update ∪ row))),
   {| table := apply_update update "display_name" name <$> table w;
      clock := clock w + hd 0 (ticks w);
      ticks := tl (ticks w);
      faults := tl (faults w) |}).
Proof.
  intros [H1 _]%healthy_S Hrow.
  unfold mark_disconnected_try, mbind, Py_bind, update_eq, execute, _now_iso.
  simpl. rewrite H1. simpl. fold (named name (table w)). rewrite Hrow, fmap_cons.
  unfold apply_update at 1. by rewrite (named_head_matches _ _ _ _ Hrow).
Qed.

Lemma apply_update_unnamed payload name (t : list dict) :
  named name t = [] → apply_update payload "display_name" name <$> t = t.
Proof.
  unfold named. induction t as [|r t IH]; [done|].
  rewrite filter_cons. unfold apply_update at 1.
  destruct (decide (matches "display_name" name r = true)) as [E|E]; [done|].
  intros Hnil. simpl. apply not_true_is_false in E. rewrite E. f_equal. by apply IH.
Qed.

Lemma mark_disconnected_try_insert name w :
  healthy 2 w → named name (table w) = [] →
  let insert := stored (disconnected_insert name (VTime (clock w))) in
  mark_disconnected_try name w =
  (Return (Some (_to_model insert)),
   {| table := table w ++ [insert];
      clock := clock w + hd 0 (ticks w);
      ticks := tl (ticks w);
      faults := tl (tl (faults w)) |}).
Proof.
  intros [H1 [H2 _]%healthy_S]%healthy_S Hrow. simpl in H2.
  unfold mark_disconnected_try, mbind, Py_bind, update_eq, insert_row, execute, _now_iso.
  simpl. rewrite H1. simpl. fold (named name (table w)). rewrite Hrow. simpl.
  rewrite H2. simpl. by rewrite apply_update_unnamed.
Qed.

(** ** What one call does to the table *)

(** Whatever the backend's faults, [mark_connected] leaves the table as it
    was, or with its update payload merged into the rows of that name, or
    with its insert payload appended when no row had that name. *)
Lemma mark_connected_table name c v k w :
  let t' := table (mark_connected name c v k w).2 in
  let now := VTime (clock w) in
  t' = table w
  ∨ t' = apply_update (connected_update now c v k) "display_name" name <$> table w
  ∨ (named name (table w) = [] ∧ t' = table w ++ [connected_insert name now c v k]).
Proof.
  unfold mark_connected, try_except, mark_connected_try, mark_connected_except.
  unfold mbind, Py_bind, mret, Py_ret, select_eq, update_eq, insert_row, execute, _now_iso.
  simpl. rewrite project_all. fold (named name (table w)).
  destruct (hd Healthy (faults w)); simpl; [|by left..].
  destruct (named name (table w)) as [|row rest] eqn:Hn; simpl.
  - rewrite connected_insert_defaults.
    destruct (hd Healthy (tail (faults w))); simpl; [right; right | left | right; right]; done.
  - destruct (hd Healthy (tail (faults w))); simpl; [right; left | left | right; left]; done.
Qed.

Lemma mark_disconnected_table name w :
  let t' := table (mark_disconnected name w).2 in
  let now := VTime (clock w) in
  t' = table w
  ∨ t' = apply_update (disconnected_update now) "display_name" name <$> table w
  ∨ (named name (table w) = []
     ∧ t' = table w ++ [stored (disconnected_insert name now)]).
Proof.
  unfold mark_disconnected, try_except, mark_disconnected_try.
  unfold mbind, Py_bind, mret, Py_ret, update_eq, insert_row, execute, _now_iso.
  simpl. fold (named name (table w)).
  destruct (hd Healthy (faults w)); simpl; [|by left|by right; left].
  destruct (named name (table w)) as [|row rest] eqn:Hn; simpl.
  - rewrite (apply_update_unnamed _ _ _ Hn).
    destruct (hd Healthy (tail (faults w))); simpl; [right; right | left | right; right]; done.
  - by right; left.
Qed.

Lemma list_all_table w : table (list_all w).2 = table w.
Proof.
  unfold list_all, try_except, list_all_try, rows_sort.
  unfold mbind, Py_bind, mret, Py_ret, select_order_desc, execute.
  destruct (hd Healthy (faults w)); simpl; [|done..].
  by destruct (mapM _ _).
Qed.

Lemma exists_table name w : table (exists_ name w).2 = table w.
Proof.
  unfold exists_, try_except, exists_try.
  unfold mbind, Py_bind, mret, Py_ret, select_eq, execute.
  by destruct (hd Healthy (faults w)).
Qed.

(** ** Columns a payload does not mention *)

Lemma apply_update_frame payload col v c (row : dict) :
  payload !! c = None → apply_update payload col v row !! c = row !! c.
Proof.
  intros H. unfold apply_update. destruct (matches col v row); [|done].
  by apply lookup_union_r.
Qed.

Lemma update_frame {B} (f : dict → B) payload col v (t : list dict) :
  (∀ row, f (apply_update payload col v row) = f row) →
  f <$> (apply_update payload col v <$> t) = f <$> t.
Proof.
  intros H. rewrite <- list_fmap_compose. apply list_fmap_ext. intros _ row _. apply H.
Qed.

Lemma connected_update_first_seen now c v k :
  connected_update now c v k !! "first_seen" = None.
Proof. by destruct c, v, k; vm_compute. Qed.

Lemma connected_update_display_name now c v k :
  connected_update now c v k !! "display_name" = None.
Proof. by destruct c, v, k; vm_compute. Qed.

Lemma connected_update_client_id now v k :
  connected_update now None v k !! "client_id" = None.
Proof. by destruct v, k; vm_compute. Qed.

Lemma connected_update_version now c k :
  connected_update now c None k !! "last_seen_version" = None.
Proof. by destruct c, k; vm_compute. Qed.

Lemma connected_update_capabilities now c v :
  connected_update now c v None !! "capabilities" = None.
Proof. by destruct c, v; vm_compute. Qed.

Lemma connected_update_status now c v k :
  connected_update now c v k !! "status" = Some (VStr "connected").
Proof. by destruct c, v, k; vm_compute. Qed.

Lemma connected_update_last_seen now c v k :
  connected_update now c v k !! "last_seen" = Some now.
Proof. by destruct c, v, k; vm_compute. Qed.

Lemma disconnected_update_first_seen now :
  disconnected_update now !! "first_seen" = None.
Proof. by vm_compute. Qed.

Lemma disconnected_update_display_name now :
  disconnected_update now !! "display_name" = None.
Proof. by vm_compute. Qed.

(** A column survives a call of [mark_connected] whose update payload does
    not mention it; rows are only ever appended. *)
Lemma mark_connected_frame {B} (f : dict → B) name c v k w :
  (∀ row, f (apply_update (connected_update (VTime (clock w)) c v k) "display_name" name row)
          = f row) →
  (f <$> table w) `prefix_of` (f <$> table (mark_connected name c v k w).2).
Proof.
  intros Hf.
  destruct (mark_connected_table name c v k w) as [-> | [-> | [_ ->]]].
  - done.
  - by rewrite update_frame.
  - rewrite fmap_app. by apply prefix_app_r.
Qed.

Lemma mark_disconnected_frame {B} (f : dict → B) name w :
  (∀ row, f (apply_update (disconnected_update (VTime (clock w))) "display_name" name row)
          = f row) →
  (f <$> table w) `prefix_of` (f <$> table (mark_disconnected name w).2).
Proof.
  intros Hf.
  destruct (mark_disconnected_table name w) as [-> | [-> | [_ ->]]].
  - done.
  - by rewrite update_frame.
  - rewrite fmap_app. by apply prefix_app_r.
Qed.

Lemma step_born w o : (born <$> table w) `prefix_of` (born <$> table (step w o)).
Proof.
  destruct o as [n c v k | n | | n]; simpl.
  - apply mark_connected_frame. intros row. unfold born.
    by rewrite !apply_update_frame
      by (apply connected_update_first_seen || apply connected_update_display_name).
  - apply mark_disconnected_frame. intros row. unfold born.
    by rewrite !apply_update_frame
      by (apply disconnected_update_first_seen || apply disconnected_update_display_name).
  - by rewrite list_all_table.
  - by rewrite exists_table.
Qed.

Lemma run_born ops w : (born <$> table w) `prefix_of` (born <$> table (run ops w)).
Proof.
  revert w. induction ops as [|o ops IH]; intros w; simpl; [done|].
  etrans; [apply (step_born w o) | apply IH].
Qed.

(** ** The sort *)

Section stable_sort.
Context {A : Type} (leb : A → A → bool).
Hypothesis leb_total : ∀ x y, leb x y = true ∨ leb y x = true.
Hypothesis leb_trans : ∀ x y z, leb x y = true → leb y z = true → leb x z = true.

Lemma insert_sorted_perm x l : insert_sorted leb x l ≡ₚ x :: l.
Proof.
  induction l as [|y l IH]; simpl; [done|].
  destruct (leb x y); [done|]. rewrite IH. apply Permutation_swap.
Qed.

Lemma stable_sort_perm l : stable_sort leb l ≡ₚ l.
Proof.
  induction l as [|x l IH]; simpl; [done|].
  rewrite insert_sorted_perm. by rewrite IH.
Qed.

Lemma insert_sorted_sorted x l :
  StronglySorted (λ a b, leb a b = true) l →
  StronglySorted (λ a b, leb a b = true) (insert_sorted leb x l).
Proof.
  induction 1 as [|y l Hl IH Hy]; simpl.
  - repeat constructor.
  - destruct (leb x y) eqn:E.
    + constructor; [by constructor|]. constructor; [done|].
      eapply Forall_impl; [exact Hy|]. intros z Hz. by eapply leb_trans.
    + constructor; [done|]. rewrite insert_sorted_perm. constructor; [|done].
      destruct (leb_total x y); congruence.
Qed.

Lemma stable_sort_sorted l : StronglySorted (λ a b, leb a b = true) (stable_sort leb l).
Proof.
  induction l as [|x l IH]; simpl; [constructor|]. by apply insert_sorted_sorted.
Qed.
End stable_sort.

(** Byte-wise order of strings. *)
Lemma ascii_compare_lt_trans a b c :
  Ascii.compare a b = Lt → Ascii.compare b c = Lt → Ascii.compare a c = Lt.
Proof.
  unfold Ascii.compare. rewrite !N.compare_lt_iff. apply N.lt_trans.
Qed.

Lemma string_compare_trans s1 : ∀ s2 s3,
  String.compare s1 s2 ≠ Gt → String.compare s2 s3 ≠ Gt → String.compare s1 s3 ≠ Gt.
Proof.
  induction s1 as [|a s1 IH]; intros [|b s2] [|c s3]; simpl; try done.
  destruct (Ascii.compare a b) eqn:Eab; [|intros _|done].
  - apply Ascii.compare_eq_iff in Eab as ->.
    destruct (Ascii.compare b c); [apply IH | done | done].
  - destruct (Ascii.compare b c) eqn:Ebc; [|intros _|done].
    + apply Ascii.compare_eq_iff in Ebc as <-. by rewrite Eab.
    + by rewrite (ascii_compare_lt_trans _ _ _ Eab Ebc).
Qed.

Lemma string_leb_trans s1 s2 s3 :
  String.leb s1 s2 = true → String.leb s2 s3 = true → String.leb s1 s3 = true.
Proof.
  unfold String.leb. intros H1 H2.
  pose proof (string_compare_trans s1 s2 s3) as H.
  destruct (String.compare s1 s2), (String.compare s2 s3), (String.compare s1 s3);
    try done; exfalso; by apply H.
Qed.

Lemma key_leb_total k1 k2 : key_leb k1 k2 = true ∨ key_leb k2 k1 = true.
Proof.
  destruct k1 as [[] s1], k2 as [[] s2]; unfold key_leb; simpl;
    auto using String.leb_total.
Qed.

Lemma key_leb_trans k1 k2 k3 :
  key_leb k1 k2 = true → key_leb k2 k3 = true → key_leb k1 k3 = true.
Proof.
  destruct k1 as [[] s1], k2 as [[] s2], k3 as [[] s3]; unfold key_leb; simpl;
    try done; apply string_leb_trans.
Qed.

Lemma key_leb_antisym k1 k2 : key_leb k1 k2 = true → key_leb k2 k1 = true → k1 = k2.
Proof.
  destruct k1 as [[] s1], k2 as [[] s2]; unfold key_leb; simpl; try done;
    intros H1 H2; f_equal; by apply String.leb_antisym.
Qed.

(** ** [list_all] on a healthy backend *)

Lemma sort_key_model (r : dict) k : sort_key r = Some k → model_key (_to_model r) = k.
Proof.
  unfold sort_key, model_key, _to_model, get. simpl.
  destruct (r !! "display_name") as [[| s | |]|]; simpl; congruence.
Qed.

Lemma mapM_keyed (rows : list dict) :
  sortable rows →
  ∃ ks, mapM keyed rows = Some ks ∧ snd <$> ks = rows
        ∧ Forall (λ kr, sort_key kr.2 = Some kr.1) ks.
Proof.
  induction 1 as [|r rows [k Hk] _ (ks & Hks & Hsnd & Hall)].
  - exists []. by repeat split.
  - exists ((k, r) :: ks). split; [|split].
    + apply mapM_Some. constructor; [|by apply mapM_Some].
      unfold keyed. by rewrite Hk.
    + by rewrite fmap_cons, Hsnd.
    + by constructor.
Qed.

Lemma StronglySorted_Forall {A} (R : relation A) (P : A → Prop) l :
  StronglySorted R l → Forall P l → StronglySorted (λ a b, R a b ∧ P a ∧ P b) l.
Proof.
  induction 1 as [|x l Hl IH Hx]; intros HP; [constructor|].
  apply Forall_cons in HP as [Px HP].
  constructor; [by apply IH|].
  apply Forall_forall. intros y Hy. rewrite Forall_forall in Hx, HP. auto.
Qed.

Lemma list_all_healthy w :
  healthy 1 w → sortable (table w) →
  ∃ l, list_all w = (Return l, set_table (table w) (pop_fault w))
       ∧ l ≡ₚ _to_model <$> table w
       ∧ StronglySorted model_le l.
Proof.
  intros Hw Hs.
  unfold list_all, try_except, list_all_try, select_order_desc, mbind, Py_bind.
  rewrite (execute_healthy _ _ Hw). simpl.
  set (rows := stable_sort (desc_leb "last_seen") (table w)).
  assert (rows ≡ₚ table w) as Hrows by apply stable_sort_perm.
  assert (sortable rows) as Hs' by (unfold sortable; by rewrite Hrows).
  destruct (mapM_keyed rows Hs') as (ks & Hks & Hsnd & Hall).
  unfold rows_sort. rewrite Hks. simpl.
  set (sorted := stable_sort (λ a b : bool * string * dict, key_leb a.1 b.1) ks).
  assert (sorted ≡ₚ ks) as Hperm by apply stable_sort_perm.
  eexists. split; [reflexivity|]. split.
  - by rewrite Hperm, Hsnd, Hrows.
  - rewrite <- list_fmap_compose.
    eapply StronglySorted_fmap with (R1 := λ a b, key_leb a.1 b.1 = true
              ∧ sort_key a.2 = Some a.1 ∧ sort_key b.2 = Some b.1).
    + intros [k1 r1] [k2 r2] (Hle & H1 & H2). simpl in *.
      unfold model_le. by rewrite (sort_key_model _ _ H1), (sort_key_model _ _ H2).
    + apply (StronglySorted_Forall (λ a b, key_leb a.1 b.1 = true)).
      * apply (stable_sort_sorted (λ a b : bool * string * dict, key_leb a.1 b.1)).
        -- intros. apply key_leb_total.
        -- intros ???. apply key_leb_trans.
      * by rewrite Hperm.
Qed.

(** ** Backend failures *)

Lemma trip_fails_0 w : trip_fails 0 w ↔ hd Healthy (faults w) ≠ Healthy.
Proof. unfold trip_fails. by destruct (faults w). Qed.

Lemma trip_fails_1 w : trip_fails 1 w ↔ hd Healthy (tl (faults w)) ≠ Healthy.
Proof. unfold trip_fails. by destruct (faults w) as [|? []]. Qed.

Lemma mark_connected_try_raises name c v k w :
  backend_fails (MarkConnected name c v k) w →
  ∃ w1, mark_connected_try name c v k w = (Raise, w1) ∧ (clock w ≤ clock w1)%nat.
Proof.
  simpl. rewrite trip_fails_0, trip_fails_1. intros Hf.
  unfold mark_connected_try, mbind, Py_bind, mret, Py_ret.
  unfold select_eq, update_eq, insert_row, execute, _now_iso. simpl.
  destruct (hd Healthy (faults w)) eqn:H1; simpl; [|eauto..].
  destruct Hf as [Hf|Hf]; [done|].
  destruct (take 1 _) as [|row ?]; simpl;
    destruct (hd Healthy (tail (faults w))); simpl; try done;
    eexists; (split; [reflexivity | simpl; lia]).
Qed.

Lemma mark_connected_except_run name c v k w :
  ∃ w', mark_connected_except name c v k w
        = (Return (fallback name c v k (clock w) (clock w + hd 0 (ticks w))), w').
Proof. eexists. reflexivity. Qed.

(** C3: when the backend fails during [mark_connected] the error is not
    propagated: the call returns the record built from its own arguments,
    with status connected and two timestamps read from the clock after the
    failure. *)
Theorem mark_connected_backend_failure name c v k w :
  backend_fails (MarkConnected name c v k) w →
  ∃ w1 w2,
    mark_connected_try name c v k w = (Raise, w1)
    ∧ (clock w ≤ clock w1)%nat
    ∧ mark_connected name c v k w
      = (Return (fallback name c v k (clock w1) (clock w1 + hd 0 (ticks w1))), w2).
Proof.
  intros Hf. destruct (mark_connected_try_raises name c v k w Hf) as (w1 & Htry & Hclock).
  destruct (mark_connected_except_run name c v k w1) as (w2 & Hex).
  exists w1, w2. repeat split; [done..|].
  unfold mark_connected, try_except. by rewrite Htry.
Qed.

Lemma mark_connected_backend_failure_witness :
  ∃ w1 w2,
    mark_connected_try "agent1" (Some "sess-1") None None
      {| table := []; clock := 7; ticks := [2; 3]; faults := [Lost] |} = (Raise, w1)
    ∧ (7 ≤ clock w1)%nat
    ∧ mark_connected "agent1" (Some "sess-1") None None
        {| table := []; clock := 7; ticks := [2; 3]; faults := [Lost] |}
      = (Return (fallback "agent1" (Some "sess-1") None None
                   (clock w1) (clock w1 + hd 0 (ticks w1))), w2).
Proof.
  apply (mark_connected_backend_failure "agent1" (Some "sess-1") None None
           {| table := []; clock := 7; ticks := [2; 3]; faults := [Lost] |}).
  left. vm_compute. discriminate.
Defined.

(** The three other operations under a backend failure. *)
Lemma mark_disconnected_backend_failure name w :
  backend_fails (MarkDisconnected name) w →
  ∃ w', mark_disconnected name w = (Return None, w').
Proof.
  simpl. rewrite trip_fails_0, trip_fails_1. intros Hf.
  unfold mark_disconnected, try_except, mark_disconnected_try, mbind, Py_bind, mret, Py_ret.
  unfold update_eq, insert_row, execute, _now_iso. simpl.
  destruct (hd Healthy (faults w)) eqn:H1; simpl; [|eauto..].
  destruct Hf as [Hf|[Hn Hf]]; [done|].
  fold (named name (table w)). rewrite Hn. simpl.
  destruct (hd Healthy (tail (faults w))); simpl; [done|eauto..].
Qed.

Lemma list_all_backend_failure w :
  backend_fails ListAll w → ∃ w', list_all w = (Return [], w').
Proof.
  simpl. rewrite trip_fails_0. intros Hf.
  unfold list_all, try_except, list_all_try, mbind, Py_bind, mret, Py_ret.
  unfold select_order_desc, execute.
  destruct (hd Healthy (faults w)); [done|eauto..].
Qed.

Lemma exists_backend_failure name w :
  backend_fails (Exists name) w → ∃ w', exists_ name w = (Return false, w').
Proof.
  simpl. rewrite trip_fails_0. intros Hf.
  unfold exists_, try_except, exists_try, mbind, Py_bind, mret, Py_ret.
  unfold select_eq, execute.
  destruct (hd Healthy (faults w)); [done|eauto..].
Qed.

(** No call raises, whatever the backend does. *)
Lemma mark_connected_returns name c v k w :
  ∃ r w', mark_connected name c v k w = (Return r, w').
Proof.
  unfold mark_connected, try_except.
  destruct (mark_connected_try name c v k w) as [[r|] w1]; [eauto|].
  destruct (mark_connected_except_run name c v k w1) as (w2 & ->). eauto.
Qed.

Lemma mark_disconnected_returns name w :
  ∃ r w', mark_disconnected name w = (Return r, w').
Proof.
  unfold mark_disconnected, try_except.
  destruct (mark_disconnected_try name w) as [[r|] w1]; eauto.
Qed.

Lemma list_all_returns w : ∃ l w', list_all w = (Return l, w').
Proof.
  unfold list_all, try_except. destruct (list_all_try w) as [[r|] w1]; eauto.
Qed.

Lemma exists_returns name w : ∃ b w', exists_ name w = (Return b, w').
Proof.
  unfold exists_, try_except. destruct (exists_try name w) as [[r|] w1]; eauto.
Qed.

Lemma call_returns o w : ∃ a w', call o w = (Return a, w').
Proof.
  destruct o as [n c v k | n | | n]; unfold call, mbind, Py_bind.
  - destruct (mark_connected_returns n c v k w) as (r & w' & ->). eauto.
  - destruct (mark_disconnected_returns n w) as (r & w' & ->). eauto.
  - destruct (list_all_returns w) as (r & w' & ->). eauto.
  - destruct (exists_returns n w) as (r & w' & ->). eauto.
Qed.

(** C6: no operation propagates a backend error.  When the backend fails
    during a call, the call returns, and what it returns is the default of
    the operation: [None] for [mark_disconnected], the empty list for
    [list_all], [False] for [exists] (and a record of status connected for
    [mark_connected]). *)
Theorem backend_errors_swallowed o w :
  backend_fails o w →
  ∃ a w', call o w = (Return a, w')
    ∧ match o with
      | MarkConnected _ _ _ _ => ∃ r, a = Client r ∧ status r = VStr "connected"
      | MarkDisconnected _ => a = MaybeClient None
      | ListAll => a = Clients []
      | Exists _ => a = Flag false
      end.
Proof.
  intros Hf. destruct o as [n c v k | n | | n]; unfold call, mbind, Py_bind.
  - destruct (mark_connected_try_raises n c v k w Hf) as (w1 & Htry & _).
    destruct (mark_connected_except_run n c v k w1) as (w2 & Hex).
    unfold mark_connected, try_except. rewrite Htry, Hex. eauto 10.
  - destruct (mark_disconnected_backend_failure n w Hf) as (w' & ->). eauto.
  - destruct (list_all_backend_failure w Hf) as (w' & ->). eauto.
  - destruct (exists_backend_failure n w Hf) as (w' & ->). eauto.
Qed.

Lemma backend_errors_swallowed_witness :
  ∃ a w', call (MarkDisconnected "agent1")
            {| table := []; clock := 0; ticks := []; faults := [Healthy; Late] |}
          = (Return a, w')
    ∧ a = MaybeClient None.
Proof.
  apply (backend_errors_swallowed (MarkDisconnected "agent1")
           {| table := []; clock := 0; ticks := []; faults := [Healthy; Late] |}).
  right. split; [reflexivity | vm_compute; discriminate].
Defined.

(** ** The timestamps of the fallback record *)

(** C2, at the input where it fails: the backend is down and the clock
    advances between the two readings of the [except] branch.  The record
    returned was last seen at 0 and first seen at 1. *)
Theorem fallback_first_seen_after_last_seen :
  ∃ r w',
    mark_connected "agent1" None None None
      {| table := []; clock := 0; ticks := [1]; faults := [Lost] |} = (Return r, w')
    ∧ last_seen r = VTime 0
    ∧ first_seen r = VTime 1
    ∧ ¬ seen_in_order r.
Proof.
  eexists _, _. split; [reflexivity|]. simpl. repeat split. unfold seen_in_order. simpl. lia.
Qed.

(** ** The stored records of a name *)

Lemma matches_lookup name (row : dict) :
  matches "display_name" name row = true ↔ row !! "display_name" = Some (VStr name).
Proof. unfold matches. by rewrite bool_decide_eq_true. Qed.

Lemma named_app name (t1 t2 : list dict) : named name (t1 ++ t2) = named name t1 ++ named name t2.
Proof. unfold named. apply filter_app. Qed.

Lemma named_singleton name n (row : dict) :
  row !! "display_name" = Some (VStr n) →
  named name [row] = if decide (name = n) then [row] else [].
Proof.
  intros Hrow. unfold named. rewrite filter_cons, filter_nil.
  destruct (decide (matches "display_name" name row = true)) as [E|E];
    rewrite matches_lookup, Hrow in E;
    destruct (decide (name = n)) as [->|Hne]; congruence.
Qed.

Lemma matches_apply_update payload name n (row : dict) :
  payload !! "display_name" = None →
  matches "display_name" name (apply_update payload "display_name" n row)
  = matches "display_name" name row.
Proof. intros Hp. unfold matches. by rewrite apply_update_frame. Qed.

Lemma named_apply_update payload name n (t : list dict) :
  payload !! "display_name" = None →
  named name (apply_update payload "display_name" n <$> t)
  = apply_update payload "display_name" n <$> named name t.
Proof.
  intros Hp. unfold named. induction t as [|row t IH]; [done|].
  rewrite fmap_cons, !filter_cons, matches_apply_update by done.
  destruct (decide (matches "display_name" name row = true)); [|done].
  by rewrite fmap_cons, IH.
Qed.

(** ** A call on a healthy backend *)

Lemma or_empty_Some d : or_empty (Some d) = d.
Proof. unfold or_empty. by case_decide. Qed.

Lemma carries_update now c v k (row : dict) :
  carries now c v k (connected_update now c v k ∪ row).
Proof.
  unfold carries. split_and!.
  - apply lookup_union_Some_l, connected_update_status.
  - apply lookup_union_Some_l, connected_update_last_seen.
  - intros a ->. apply lookup_union_Some_l. by destruct v, k; vm_compute.
  - intros a ->. apply lookup_union_Some_l. by destruct c, k; vm_compute.
  - intros d ->. apply lookup_union_Some_l. by destruct c, v; vm_compute.
Qed.

Lemma carries_insert name now c v k :
  carries now c v k (connected_insert name now c v k).
Proof.
  unfold carries. split_and!.
  - apply connected_insert_status.
  - apply connected_insert_last_seen.
  - intros a ->. apply connected_insert_client_id.
  - intros a ->. apply connected_insert_version.
  - intros d ->. by rewrite connected_insert_capabilities, or_empty_Some.
Qed.

Lemma Forall_named_updated (P : dict → Prop) payload name (t : list dict) :
  (∀ row, P (payload ∪ row)) →
  Forall P (apply_update payload "display_name" name <$> named name t).
Proof.
  intros HP. apply Forall_fmap, Forall_forall. intros row Hin.
  unfold named in Hin. apply list_elem_of_filter in Hin as [Hm _].
  simpl. unfold apply_update. rewrite Hm. apply HP.
Qed.

Lemma mark_connected_healthy name c v k w :
  healthy 2 w →
  ∃ row1 rest1 w1,
    mark_connected name c v k w = (Return (_to_model row1), w1)
    ∧ named name (table w1) = row1 :: rest1
    ∧ faults w1 = tl (tl (faults w))
    ∧ clock w1 = clock w + hd 0 (ticks w)
    ∧ ticks w1 = tl (ticks w)
    ∧ Forall (carries (VTime (clock w)) c v k) (row1 :: rest1)
    ∧ row1 !! "first_seen" = match named name (table w) with
                             | [] => Some (VTime (clock w))
                             | row :: _ => row !! "first_seen"
                             end.
Proof.
  intros Hw. destruct (named name (table w)) as [|row rest] eqn:Hn.
  - pose proof (mark_connected_try_insert name c v k w Hw Hn) as Htry. simpl in Htry.
    eexists _, [], _. split; [by apply try_except_return|]. simpl.
    rewrite named_app, Hn, (named_singleton _ name) by apply connected_insert_display_name.
    rewrite decide_True by done.
    split_and!; [done..| |apply connected_insert_first_seen].
    repeat constructor; apply carries_insert.
  - pose proof (mark_connected_try_update name c v k w row rest Hw Hn) as Htry.
    simpl in Htry.
    pose proof (Forall_named_updated (carries (VTime (clock w)) c v k) _ name (table w)
                  (carries_update (VTime (clock w)) c v k)) as HF.
    rewrite Hn, fmap_cons in HF. unfold apply_update at 1 in HF.
    rewrite (named_head_matches _ _ _ _ Hn) in HF.
    eexists _, _, _. split; [by apply try_except_return|]. simpl.
    rewrite named_apply_update, Hn, fmap_cons by apply connected_update_display_name.
    unfold apply_update at 1. rewrite (named_head_matches _ _ _ _ Hn).
    split_and!; [done..|exact HF|apply lookup_union_r, connected_update_first_seen].
Qed.

Lemma mark_disconnected_healthy name w :
  healthy 2 w →
  ∃ row1 rest1 w1,
    mark_disconnected name w = (Return (Some (_to_model row1)), w1)
    ∧ named name (table w1) = row1 :: rest1
    ∧ faults w1 = match named name (table w) with
                  | [] => tl (tl (faults w))
                  | _ :: _ => tl (faults w)
                  end
    ∧ clock w1 = clock w + hd 0 (ticks w)
    ∧ ticks w1 = tl (ticks w)
    ∧ Forall (λ row, row !! "status" = Some (VStr "disconnected")
                     ∧ row !! "last_seen" = Some (VTime (clock w))) (row1 :: rest1)
    ∧ row1 !! "first_seen" = match named name (table w) with
                             | [] => Some (VTime (clock w))
                             | row :: _ => row !! "first_seen"
                             end.
Proof.
  intros Hw. destruct (named name (table w)) as [|row rest] eqn:Hn.
  - pose proof (mark_disconnected_try_insert name w Hw Hn) as Htry. simpl in Htry.
    eexists _, [], _. split; [by apply try_except_return|]. simpl.
    rewrite named_app, Hn, (named_singleton _ name)
      by apply stored_disconnected_display_name.
    rewrite decide_True by done.
    split_and!; [done..| |apply stored_disconnected_first_seen].
    constructor; [|constructor].
    split; [apply stored_disconnected_status | apply stored_disconnected_last_seen].
  - assert (healthy 1 w) as Hw1 by (eapply healthy_le; [|exact Hw]; lia).
    pose proof (mark_disconnected_try_update name w row rest Hw1 Hn) as Htry.
    simpl in Htry.
    pose proof (Forall_named_updated
                  (λ row, row !! "status" = Some (VStr "disconnected")
                          ∧ row !! "last_seen" = Some (VTime (clock w)))
                  (disconnected_update (VTime (clock w))) name (table w)) as HF.
    rewrite Hn, fmap_cons in HF. unfold apply_update at 1 in HF.
    rewrite (named_head_matches _ _ _ _ Hn) in HF.
    eexists _, _, _. split; [by apply try_except_return|]. simpl.
    rewrite named_apply_update, Hn, fmap_cons by apply disconnected_update_display_name.
    unfold apply_update at 1. rewrite (named_head_matches _ _ _ _ Hn).
    split_and!; [done..| |apply lookup_union_r, disconnected_update_first_seen].
    apply HF. intros r. split; apply lookup_union_Some_l;
      [apply disconnected_update_status | apply disconnected_update_last_seen].
Qed.

(** ** [first_seen] *)

(** C7: [first_seen] is written when a record is created and by nothing
    else.  The insert payloads set it to the time of the call, the update
    payloads of [mark_connected] and [mark_disconnected] do not mention it,
    and through any sequence of calls, whatever the backend's faults, every
    stored record keeps its place, its [display_name] and its [first_seen]:
    the table only grows at its end. *)
Theorem first_seen_set_once ops w :
  (∀ name now c v k, connected_insert name now c v k !! "first_seen" = Some now)
  ∧ (∀ name now, disconnected_insert name now !! "first_seen" = Some now)
  ∧ (∀ now c v k, connected_update now c v k !! "first_seen" = None)
  ∧ (∀ now, disconnected_update now !! "first_seen" = None)
  ∧ (born <$> table w) `prefix_of` (born <$> table (run ops w)).
Proof.
  split_and!.
  - apply connected_insert_first_seen.
  - apply disconnected_insert_first_seen.
  - apply connected_update_first_seen.
  - apply disconnected_update_first_seen.
  - apply run_born.
Qed.

(** ** Records created by [mark_disconnected] *)

Lemma mark_disconnected_insert_path name w :
  healthy 2 w → named name (table w) = [] →
  mark_disconnected name w =
  (Return (Some (_to_model (stored (disconnected_insert name (VTime (clock w)))))),
   {| table := table w ++ [stored (disconnected_insert name (VTime (clock w)))];
      clock := clock w + hd 0 (ticks w);
      ticks := tl (ticks w);
      faults := tl (tl (faults w)) |}).
Proof.
  intros Hw Hn. apply try_except_return.
  apply (mark_disconnected_try_insert name w Hw Hn).
Qed.

Lemma mark_connected_insert_path name c v k w :
  healthy 2 w → named name (table w) = [] →
  mark_connected name c v k w =
  (Return (_to_model (connected_insert name (VTime (clock w)) c v k)),
   {| table := table w ++ [connected_insert name (VTime (clock w)) c v k];
      clock := clock w + hd 0 (ticks w);
      ticks := tl (ticks w);
      faults := tl (tl (faults w)) |}).
Proof.
  intros Hw Hn. apply try_except_return.
  apply (mark_connected_try_insert name c v k w Hw Hn).
Qed.

(** C10, as the code has it: for a name with no stored record and a backend
    that answers, the insert payload of [mark_disconnected] names neither
    [client_id] nor [last_seen_version] nor [capabilities], where that of
    [mark_connected] sets [capabilities] to [capabilities or {}].  The record
    [mark_disconnected] returns is the record of the row the table stored:
    its [client_id] and [last_seen_version] are [None], and its
    [capabilities] is the default of the column, the empty dict. *)
Theorem mark_disconnected_created_record name c v k w :
  named name (table w) = [] → healthy 2 w →
  (∃ r w' row,
     mark_disconnected name w = (Return (Some r), w')
     ∧ table w' = table w ++ [row]
     ∧ _to_model row = r
     ∧ disconnected_insert name (VTime (clock w)) !! "client_id" = None
     ∧ disconnected_insert name (VTime (clock w)) !! "last_seen_version" = None
     ∧ disconnected_insert name (VTime (clock w)) !! "capabilities" = None
     ∧ row !! "client_id" = None ∧ client_id r = VNone
     ∧ row !! "last_seen_version" = None ∧ last_seen_version r = VNone
     ∧ row !! "capabilities" = column_defaults !! "capabilities"
     ∧ capabilities r = VDict ∅)
  ∧ (∃ r w' row,
       mark_connected name c v k w = (Return r, w')
       ∧ table w' = table w ++ [row]
       ∧ _to_model row = r
       ∧ connected_insert name (VTime (clock w)) c v k !! "capabilities"
         = Some (VDict (or_empty k))
       ∧ row !! "capabilities" = Some (VDict (or_empty k))
       ∧ capabilities r = VDict (or_empty k)).
Proof.
  intros Hn Hw. split.
  - eexists _, _, _. split; [apply (mark_disconnected_insert_path name w Hw Hn)|].
    destruct (disconnected_insert_bare name (VTime (clock w))) as (Hp1 & Hp2 & Hp3).
    destruct (stored_disconnected_defaulted name (VTime (clock w))) as (Hs1 & Hs2 & Hs3).
    split_and!; first [done | by apply get_missing | by apply get_lookup].
  - eexists _, _, _. split; [apply (mark_connected_insert_path name c v k w Hw Hn)|].
    pose proof (connected_insert_capabilities name (VTime (clock w)) c v k) as Hc.
    split_and!; first [done | by apply get_lookup].
Qed.

Lemma mark_disconnected_created_record_witness :
  ∃ r w' row,
    mark_disconnected "agent1" {| table := []; clock := 3; ticks := []; faults := [] |}
    = (Return (Some r), w')
    ∧ table w' = [] ++ [row]
    ∧ _to_model row = r
    ∧ disconnected_insert "agent1" (VTime 3) !! "client_id" = None
    ∧ disconnected_insert "agent1" (VTime 3) !! "last_seen_version" = None
    ∧ disconnected_insert "agent1" (VTime 3) !! "capabilities" = None
    ∧ row !! "client_id" = None ∧ client_id r = VNone
    ∧ row !! "last_seen_version" = None ∧ last_seen_version r = VNone
    ∧ row !! "capabilities" = column_defaults !! "capabilities"
    ∧ capabilities r = VDict ∅.
Proof.
  apply (mark_disconnected_created_record "agent1" None None None
           {| table := []; clock := 3; ticks := []; faults := [] |});
    [reflexivity | vm_compute; constructor].
Defined.

(** The record [mark_disconnected] creates on the empty table does not have
    all three optional fields absent: its [capabilities] is the empty
    dict. *)
Lemma mark_disconnected_capabilities_defaulted :
  ¬ ∃ r w',
      mark_disconnected "agent1" {| table := []; clock := 3; ticks := []; faults := [] |}
      = (Return (Some r), w')
      ∧ client_id r = VNone
      ∧ last_seen_version r = VNone
      ∧ capabilities r = VNone.
Proof.
  intros (r & w' & Hr & _ & _ & Hc).
  rewrite (mark_disconnected_insert_path "agent1"
             {| table := []; clock := 3; ticks := []; faults := [] |}) in Hr;
    [|vm_compute; constructor|reflexivity].
  injection Hr as <- _.
  destruct (stored_disconnected_defaulted "agent1" (VTime 3)) as (_ & _ & Hs).
  apply get_lookup in Hs. simpl in Hs, Hc. congruence.
Qed.

(** ** Optional fields are written only when supplied *)

Lemma healthy_after_two n w w1 :
  healthy (S (S n)) w → faults w1 = tl (tl (faults w)) → healthy n w1.
Proof.
  intros [_ [_ H]%healthy_S]%healthy_S Hf.
  eapply healthy_faults; [|exact H]. by rewrite Hf.
Qed.

Lemma mark_connected_update_path name c v k w row rest :
  healthy 2 w → named name (table w) = row :: rest →
  mark_connected name c v k w =
  (Return (_to_model (connected_update (VTime (clock w)) c v k ∪ row)),
   {| table := apply_update (connected_update (VTime (clock w)) c v k) "display_name" name
               <$> table w;
      clock := clock w + hd 0 (ticks w);
      ticks := tl (ticks w);
      faults := tl (tl (faults w)) |}).
Proof.
  intros Hw Hn. apply try_except_return.
  apply (mark_connected_try_update name c v k w row rest Hw Hn).
Qed.

Lemma get_union_supplied {B} (inj : B → val) (payload row : dict) col (o : option B) :
  (∀ a, o = Some a → (payload ∪ row) !! col = Some (inj a)) →
  (o = None → payload !! col = None) →
  get (payload ∪ row) col = from_option inj (get row col) o.
Proof.
  intros HS HN. unfold get. destruct o as [a|]; simpl.
  - by rewrite (HS a eq_refl).
  - by rewrite (lookup_union_r _ _ _ (HN eq_refl)).
Qed.

Lemma mark_connected_column_frame col name c v k w :
  connected_update (VTime (clock w)) c v k !! col = None →
  column col (table w) `prefix_of` column col (table (mark_connected name c v k w).2).
Proof.
  intros Hcol. unfold column. apply mark_connected_frame.
  intros row. by apply apply_update_frame.
Qed.

(** C1: a field that is not supplied is not written.  Whatever the backend
    does, a call of [mark_connected] without [client_id] leaves the
    [client_id] of every stored row as it was (rows are only appended), and
    likewise for the version and the capabilities.  When a record of that
    name is stored and the backend answers, each optional field of the
    record returned is the supplied value, or the stored one when none was
    supplied.  In particular, after a call with [client_id = a], a call
    without [client_id] returns a record whose [client_id] is [a], and [a]
    is what every stored row of that name holds. *)
Theorem mark_connected_coalesces name w :
  (∀ v k, column "client_id" (table w)
          `prefix_of` column "client_id" (table (mark_connected name None v k w).2))
  ∧ (∀ c k, column "last_seen_version" (table w)
            `prefix_of` column "last_seen_version" (table (mark_connected name c None k w).2))
  ∧ (∀ c v, column "capabilities" (table w)
            `prefix_of` column "capabilities" (table (mark_connected name c v None w).2))
  ∧ (∀ c v k row rest,
       healthy 2 w → named name (table w) = row :: rest →
       ∃ r w', mark_connected name c v k w = (Return r, w')
         ∧ client_id r = from_option VStr (get row "client_id") c
         ∧ last_seen_version r = from_option VStr (get row "last_seen_version") v
         ∧ capabilities r = from_option VDict (get row "capabilities") k)
  ∧ (∀ a v1 k1 v2 k2,
       healthy 4 w →
       ∃ r1 w1 r2 w2,
         mark_connected name (Some a) v1 k1 w = (Return r1, w1)
         ∧ mark_connected name None v2 k2 w1 = (Return r2, w2)
         ∧ client_id r2 = VStr a
         ∧ named name (table w2) ≠ []
         ∧ Forall (λ row, row !! "client_id" = Some (VStr a)) (named name (table w2))).
Proof.
  split_and!.
  - intros v k. apply mark_connected_column_frame, connected_update_client_id.
  - intros c k. apply mark_connected_column_frame, connected_update_version.
  - intros c v. apply mark_connected_column_frame, connected_update_capabilities.
  - intros c v k row rest Hw Hn.
    eexists _, _. split; [apply (mark_connected_update_path _ _ _ _ _ _ _ Hw Hn)|].
    pose proof (carries_update (VTime (clock w)) c v k row) as (_ & _ & Hc & Hv & Hk).
    split_and!.
    + apply (get_union_supplied VStr); [exact Hc|].
      intros ->. apply connected_update_client_id.
    + apply (get_union_supplied VStr); [exact Hv|].
      intros ->. apply connected_update_version.
    + apply (get_union_supplied VDict); [exact Hk|].
      intros ->. apply connected_update_capabilities.
  - intros a v1 k1 v2 k2 Hw.
    assert (healthy 2 w) as Hw2 by (eapply healthy_le; [|exact Hw]; lia).
    destruct (mark_connected_healthy name (Some a) v1 k1 w Hw2)
      as (row1 & rest1 & w1 & Hr1 & Hn1 & Hf1 & _ & _ & Hcar & _).
    pose proof (healthy_after_two 2 w w1 Hw Hf1) as Hw1.
    pose proof (mark_connected_update_path name None v2 k2 w1 row1 rest1 Hw1 Hn1) as Hr2.
    assert (Forall (λ row : dict, row !! "client_id" = Some (VStr a)) (row1 :: rest1)) as Hid.
    { eapply Forall_impl; [exact Hcar|]. intros row (_ & _ & Hc & _). by apply Hc. }
    eexists _, _, _, _. split; [exact Hr1|]. split; [exact Hr2|]. simpl.
    rewrite named_apply_update, Hn1 by apply connected_update_display_name.
    split_and!.
    + unfold get. rewrite lookup_union_r by apply connected_update_client_id.
      apply Forall_cons in Hid as [-> _]. done.
    + by rewrite fmap_cons.
    + apply Forall_fmap. eapply Forall_impl; [exact Hid|]. intros row Hrow. simpl.
      by rewrite apply_update_frame by apply connected_update_client_id.
Qed.

Lemma mark_connected_coalesces_witness :
  ∃ r1 w1 r2 w2,
    mark_connected "agent1" (Some "A") None None
      {| table := []; clock := 0; ticks := [1; 1]; faults := [] |} = (Return r1, w1)
    ∧ mark_connected "agent1" None None None w1 = (Return r2, w2)
    ∧ client_id r2 = VStr "A"
    ∧ named "agent1" (table w2) ≠ []
    ∧ Forall (λ row, row !! "client_id" = Some (VStr "A")) (named "agent1" (table w2)).
Proof.
  apply (mark_connected_coalesces "agent1"
           {| table := []; clock := 0; ticks := [1; 1]; faults := [] |}).
  vm_compute. constructor.
Defined.

(** ** Repeated connects *)

Lemma get_same (r1 r2 : dict) c : r1 !! c = r2 !! c → get r1 c = get r2 c.
Proof. unfold get. by intros ->. Qed.

Lemma healthy_2_or_fails name c v k w :
  healthy 2 w ∨ backend_fails (MarkConnected name c v k) w.
Proof.
  simpl. rewrite trip_fails_0, trip_fails_1.
  destruct (decide (hd Healthy (faults w) = Healthy)) as [H0|H0]; [|by right; left].
  destruct (decide (hd Healthy (tl (faults w)) = Healthy)) as [H1|H1]; [|by right; right].
  left. apply healthy_S. split; [done|]. apply healthy_S. split; [done|].
  unfold healthy. rewrite take_0. constructor.
Qed.

(** Whatever the backend does, the record [mark_connected] returns is
    connected and was last seen at a reading of the clock taken during the
    call. *)
Lemma mark_connected_any name c v k w :
  ∃ r w1 t,
    mark_connected name c v k w = (Return r, w1)
    ∧ status r = VStr "connected"
    ∧ last_seen r = VTime t
    ∧ (clock w ≤ t)%nat ∧ (t ≤ clock w1)%nat.
Proof.
  destruct (healthy_2_or_fails name c v k w) as [Hw|Hf].
  - destruct (mark_connected_healthy name c v k w Hw)
      as (row1 & rest1 & w1 & Hr1 & _ & _ & Hc1 & _ & Hcar & _).
    apply Forall_cons in Hcar as [(Hs & Hl & _) _].
    exists (_to_model row1), w1, (clock w). split_and!; [done| | |lia|lia].
    + by apply get_lookup.
    + by apply get_lookup.
  - destruct (mark_connected_try_raises name c v k w Hf) as (w1 & Htry & Hclock).
    unfold mark_connected, try_except. rewrite Htry.
    eexists _, _, (clock w1). split; [reflexivity|]. simpl. split_and!; [done..|lia].
Qed.

(** C8: two successive calls of [mark_connected] for one name (with no
    optional field, or with any).  Whatever the backend does, both records
    returned are connected, the [last_seen] of each is a reading of the clock
    taken during its call, and so that of the second is not earlier than
    that of the first.  When the backend answers during both calls, each
    record is the record of the stored row of the name: after each call
    every stored row of the name is connected and last seen at the reading
    of that call, the second reading being the first plus the time that
    passed; the second call keeps [first_seen] and adds no row. *)
Theorem mark_connected_twice name c1 v1 k1 c2 v2 k2 w :
  ∃ r1 w1 r2 w2 t1 t2,
    mark_connected name c1 v1 k1 w = (Return r1, w1)
    ∧ mark_connected name c2 v2 k2 w1 = (Return r2, w2)
    ∧ status r1 = VStr "connected"
    ∧ status r2 = VStr "connected"
    ∧ last_seen r1 = VTime t1
    ∧ last_seen r2 = VTime t2
    ∧ (clock w ≤ t1)%nat ∧ (t1 ≤ clock w1)%nat
    ∧ (clock w1 ≤ t2)%nat ∧ (t2 ≤ clock w2)%nat
    ∧ (t1 ≤ t2)%nat
    ∧ (healthy 4 w →
         first_seen r2 = first_seen r1
         ∧ t1 = clock w
         ∧ t2 = clock w + hd 0 (ticks w)
         ∧ ∃ row1 rest1 row2 rest2,
             named name (table w1) = row1 :: rest1
             ∧ r1 = _to_model row1
             ∧ Forall (λ row, row !! "status" = Some (VStr "connected")
                              ∧ row !! "last_seen" = Some (VTime t1)) (row1 :: rest1)
             ∧ named name (table w2) = row2 :: rest2
             ∧ r2 = _to_model row2
             ∧ Forall (λ row, row !! "status" = Some (VStr "connected")
                              ∧ row !! "last_seen" = Some (VTime t2)) (row2 :: rest2)
             ∧ row2 !! "first_seen" = row1 !! "first_seen"
             ∧ length (table w2) = length (table w1)).
Proof.
  destruct (mark_connected_any name c1 v1 k1 w)
    as (r1 & w1 & t1 & Hr1 & Hs1 & Hl1 & Ht1 & Ht1').
  destruct (mark_connected_any name c2 v2 k2 w1)
    as (r2 & w2 & t2 & Hr2 & Hs2 & Hl2 & Ht2 & Ht2').
  exists r1, w1, r2, w2, t1, t2. split_and!; [done..|lia|].
  intros Hw.
  assert (healthy 2 w) as Hw2 by (eapply healthy_le; [|exact Hw]; lia).
  destruct (mark_connected_healthy name c1 v1 k1 w Hw2)
    as (row1 & rest1 & w1' & Hr1' & Hn1 & Hf1 & Hc1 & _ & Hcar1 & _).
  rewrite Hr1 in Hr1'. injection Hr1' as -> <-.
  pose proof (healthy_after_two 2 w w1 Hw Hf1) as Hw1.
  destruct (mark_connected_healthy name c2 v2 k2 w1 Hw1)
    as (row2 & rest2 & w2' & Hr2' & Hn2 & _ & _ & _ & Hcar2 & Hfs2).
  rewrite Hr2 in Hr2'. injection Hr2' as -> <-.
  rewrite Hn1 in Hfs2.
  assert (t1 = clock w) as ->.
  { apply Forall_cons in Hcar1 as [(_ & Hl & _) _].
    apply get_lookup in Hl. simpl in Hl1. congruence. }
  assert (t2 = clock w1) as ->.
  { apply Forall_cons in Hcar2 as [(_ & Hl & _) _].
    apply get_lookup in Hl. simpl in Hl2. congruence. }
  split_and!; [by apply get_same|done|done|].
  exists row1, rest1, row2, rest2. split_and!; try done.
  - eapply Forall_impl; [exact Hcar1|]. by intros row (? & ? & _).
  - eapply Forall_impl; [exact Hcar2|]. by intros row (? & ? & _).
  - pose proof (mark_connected_table name c2 v2 k2 w1) as Ht.
    rewrite Hr2 in Ht. simpl in Ht. destruct Ht as [-> | [-> | [Hnil _]]].
    + done.
    + by rewrite length_fmap.
    + by rewrite Hn1 in Hnil.
Qed.

Lemma mark_connected_twice_witness :
  ∃ r1 w1 r2 w2,
    mark_connected "agent1" None None None
      {| table := []; clock := 10; ticks := [5; 5]; faults := [] |} = (Return r1, w1)
    ∧ mark_connected "agent1" None None None w1 = (Return r2, w2)
    ∧ status r1 = VStr "connected"
    ∧ status r2 = VStr "connected"
    ∧ first_seen r2 = first_seen r1
    ∧ last_seen r1 = VTime 10
    ∧ last_seen r2 = VTime 15
    ∧ length (table w2) = length (table w1).
Proof.
  destruct (mark_connected_twice "agent1" None None None None None None
              {| table := []; clock := 10; ticks := [5; 5]; faults := [] |})
    as (r1 & w1 & r2 & w2 & t1 & t2 & H1 & H2 & Hs1 & Hs2 & Hl1 & Hl2 & _ & _ & _ & _ & _
        & Hh).
  destruct Hh as (Hfs & -> & -> & row1 & rest1 & row2 & rest2 & _ & _ & _ & _ & _ & _ & _
                  & Hlen).
  { vm_compute. constructor. }
  exists r1, w1, r2, w2. split_and!; done.
Defined.

(** ** Disconnecting an unknown name *)

Lemma exists_healthy name w :
  healthy 1 w →
  ∃ w', exists_ name w
        = (Return (match named name (table w) with [] => false | _ :: _ => true end), w').
Proof.
  intros Hw. eexists. apply try_except_return.
  unfold exists_try, select_eq, mbind, Py_bind.
  rewrite (execute_healthy _ _ Hw). simpl. fold (named name (table w)).
  destruct (named name (table w)); reflexivity.
Qed.

Lemma sortable_has_name (row : dict) : has_name row → is_Some (sort_key row).
Proof. intros [s Hs]. unfold sort_key. rewrite Hs. simpl. eauto. Qed.

(** C4: [mark_disconnected] for a name with no stored record, on a backend
    that answers.  A row is appended to the table and the record returned
    has that name, the status disconnected, and one and the same time for
    [first_seen] and [last_seen]; from then on [exists] answers [True] for
    the name and [list_all] lists the record. *)
Theorem mark_disconnected_unknown name w :
  named name (table w) = [] → healthy 3 w → sortable (table w) →
  ∃ r w',
    mark_disconnected name w = (Return (Some r), w')
    ∧ display_name r = VStr name
    ∧ status r = VStr "disconnected"
    ∧ first_seen r = VTime (clock w)
    ∧ last_seen r = first_seen r
    ∧ (∃ row, table w' = table w ++ [row] ∧ _to_model row = r)
    ∧ (∃ w2, exists_ name w' = (Return true, w2))
    ∧ (∃ l w2, list_all w' = (Return l, w2) ∧ r ∈ l).
Proof.
  intros Hn Hw Hs.
  assert (healthy 2 w) as Hw2 by (eapply healthy_le; [|exact Hw]; lia).
  pose proof (mark_disconnected_try_insert name w Hw2 Hn) as Htry. simpl in Htry.
  set (row := stored (disconnected_insert name (VTime (clock w)))) in *.
  set (w' := {| table := table w ++ [row]; clock := clock w + hd 0 (ticks w);
                ticks := tl (ticks w); faults := tl (tl (faults w)) |}) in *.
  assert (healthy 1 w') as Hw' by (by apply (healthy_after_two 1 w w')).
  exists (_to_model row), w'. split; [by apply try_except_return|].
  split_and!.
  - apply get_lookup, stored_disconnected_display_name.
  - apply get_lookup, stored_disconnected_status.
  - apply get_lookup, stored_disconnected_first_seen.
  - etrans; [apply get_lookup, stored_disconnected_last_seen|].
    symmetry. apply get_lookup, stored_disconnected_first_seen.
  - by exists row.
  - destruct (exists_healthy name w' Hw') as (w2 & Hex). exists w2.
    rewrite Hex. simpl. rewrite named_app, Hn.
    rewrite (named_singleton _ name) by apply stored_disconnected_display_name.
    by rewrite decide_True.
  - assert (sortable (table w')) as Hs'.
    { simpl. apply Forall_app. split; [exact Hs|]. constructor; [|constructor].
      apply sortable_has_name. exists name. apply stored_disconnected_display_name. }
    destruct (list_all_healthy w' Hw' Hs') as (l & Hl & Hperm & _).
    exists l, (set_table (table w') (pop_fault w')). split; [exact Hl|].
    rewrite Hperm. simpl. rewrite fmap_app. apply elem_of_app. right. by left.
Qed.

Lemma mark_disconnected_unknown_witness :
  ∃ r w',
    mark_disconnected "agent1"
      {| table := [connected_insert "agent0" (VTime 1) None None None];
         clock := 4; ticks := [1]; faults := [] |} = (Return (Some r), w')
    ∧ display_name r = VStr "agent1"
    ∧ status r = VStr "disconnected"
    ∧ first_seen r = VTime 4
    ∧ last_seen r = first_seen r
    ∧ (∃ row, table w' = [connected_insert "agent0" (VTime 1) None None None] ++ [row]
              ∧ _to_model row = r)
    ∧ (∃ w2, exists_ "agent1" w' = (Return true, w2))
    ∧ (∃ l w2, list_all w' = (Return l, w2) ∧ r ∈ l).
Proof.
  apply (mark_disconnected_unknown "agent1"
           {| table := [connected_insert "agent0" (VTime 1) None None None];
              clock := 4; ticks := [1]; faults := [] |}).
  - reflexivity.
  - vm_compute. constructor.
  - constructor; [|constructor]. vm_compute. eauto.
Defined.

(** ** The order of [list_all] *)

Lemma StronglySorted_lookup {A} (R : relation A) (l : list A) i j x y :
  StronglySorted R l → (i < j)%nat → l !! i = Some x → l !! j = Some y → R x y.
Proof.
  intros Hl. revert i j. induction Hl as [|z l Hl IH Hz]; intros i j Hij Hi Hj.
  - by rewrite lookup_nil in Hi.
  - destruct j as [|j]; [lia|]. destruct i as [|i]; simpl in *.
    + injection Hi as ->. rewrite Forall_forall in Hz. apply Hz.
      by eapply list_elem_of_lookup_2.
    + apply (IH i j); [lia|done..].
Qed.

Lemma model_le_connected_first r1 r2 :
  model_le r1 r2 → status r2 = VStr "connected" → status r1 = VStr "connected".
Proof.
  unfold model_le, model_key, key_leb. simpl. intros Hle H2.
  rewrite (bool_decide_eq_false_2 (status r2 ≠ VStr "connected")) in Hle by auto.
  destruct (decide (status r1 = VStr "connected")) as [|Hne]; [done|].
  by rewrite (bool_decide_eq_true_2 _ Hne) in Hle.
Qed.

Lemma model_le_name_ascending r1 r2 s1 s2 :
  model_le r1 r2 →
  (status r1 = VStr "connected" ↔ status r2 = VStr "connected") →
  display_name r1 = VStr s1 → display_name r2 = VStr s2 →
  String.leb s1 s2 = true.
Proof.
  unfold model_le, model_key, key_leb. simpl. intros Hle Hiff Hd1 Hd2.
  rewrite Hd1, Hd2 in Hle.
  destruct (decide (status r1 = VStr "connected")) as [H1|H1].
  - rewrite (bool_decide_eq_false_2 (status r1 ≠ _)) in Hle by auto.
    rewrite (bool_decide_eq_false_2 (status r2 ≠ _)) in Hle by (apply Hiff in H1; auto).
    done.
  - rewrite (bool_decide_eq_true_2 _ H1) in Hle.
    rewrite (bool_decide_eq_true_2 (status r2 ≠ _)) in Hle by (rewrite <- Hiff; done).
    done.
Qed.

Lemma unique_names_eq (t : list dict) name (r1 r2 : dict) :
  unique_names t → r1 ∈ t → r2 ∈ t →
  r1 !! "display_name" = Some (VStr name) → r2 !! "display_name" = Some (VStr name) →
  r1 = r2.
Proof.
  intros Hu H1 H2 Hn1 Hn2.
  assert (r1 ∈ named name t) as Hin1
    by (apply list_elem_of_filter; split; [by apply matches_lookup | done]).
  assert (r2 ∈ named name t) as Hin2
    by (apply list_elem_of_filter; split; [by apply matches_lookup | done]).
  specialize (Hu name).
  destruct (named name t) as [|x [|y l]]; simpl in Hu; [|..|lia].
  - by apply elem_of_nil in Hin1.
  - apply list_elem_of_singleton in Hin1, Hin2. congruence.
Qed.

Lemma model_key_name (row : dict) s :
  row !! "display_name" = Some (VStr s) → (model_key (_to_model row)).2 = s.
Proof. intros H. unfold model_key, _to_model, get. simpl. by rewrite H. Qed.

(** Two listings of the same rows agree, in whatever order the backend
    stores or returns them, when [display_name] is a key of the table. *)
Lemma sorted_models_unique (t : list dict) (l1 l2 : list MCPClient) :
  Forall has_name t → unique_names t →
  l1 ≡ₚ _to_model <$> t → l2 ≡ₚ _to_model <$> t →
  StronglySorted model_le l1 → StronglySorted model_le l2 →
  l1 = l2.
Proof.
  intros Hnames Hu Hp1 Hp2 Hs1 Hs2.
  apply (StronglySorted_unique_strong model_le); [|done..|by rewrite Hp1, Hp2].
  intros x1 x2 Hx1 Hx2 H12 H21.
  rewrite Hp1 in Hx1. rewrite Hp2 in Hx2.
  apply list_elem_of_fmap in Hx1 as (r1 & -> & Hr1).
  apply list_elem_of_fmap in Hx2 as (r2 & -> & Hr2).
  pose proof (key_leb_antisym _ _ H12 H21) as Hkey.
  rewrite Forall_forall in Hnames.
  destruct (Hnames r1 Hr1) as [s1 Hn1]. destruct (Hnames r2 Hr2) as [s2 Hn2].
  assert (s1 = s2) as <-.
  { rewrite <- (model_key_name r1 s1 Hn1), <- (model_key_name r2 s2 Hn2).
    by rewrite Hkey. }
  f_equal. by apply (unique_names_eq t s1).
Qed.

(** C5: on a backend that answers, [list_all] returns the records of all the
    stored rows, sorted on (not connected, display_name): every connected
    record comes before every record that is not, and within each of the
    two groups the names ascend in byte order.  When [display_name] is a key
    of the table the list is a function of the set of rows stored: a table
    holding the same rows in another order lists the same. *)
Theorem list_all_order w :
  healthy 1 w → sortable (table w) →
  ∃ l w',
    list_all w = (Return l, w')
    ∧ table w' = table w
    ∧ l ≡ₚ _to_model <$> table w
    ∧ StronglySorted model_le l
    ∧ (∀ i j ri rj, (i < j)%nat → l !! i = Some ri → l !! j = Some rj →
         status rj = VStr "connected" → status ri = VStr "connected")
    ∧ (∀ i j ri rj si sj, (i < j)%nat → l !! i = Some ri → l !! j = Some rj →
         (status ri = VStr "connected" ↔ status rj = VStr "connected") →
         display_name ri = VStr si → display_name rj = VStr sj →
         String.leb si sj = true)
    ∧ (∀ w2, Forall has_name (table w) → unique_names (table w) →
         healthy 1 w2 → table w2 ≡ₚ table w →
         ∃ w2', list_all w2 = (Return l, w2')).
Proof.
  intros Hw Hs. destruct (list_all_healthy w Hw Hs) as (l & Hl & Hperm & Hsorted).
  exists l, (set_table (table w) (pop_fault w)). split_and!; try done.
  - intros i j ri rj Hij Hi Hj.
    apply model_le_connected_first. by apply (StronglySorted_lookup _ l i j).
  - intros i j ri rj si sj Hij Hi Hj.
    apply model_le_name_ascending. by apply (StronglySorted_lookup _ l i j).
  - intros w2 Hnames Hu Hw2 Ht2.
    assert (sortable (table w2)) as Hs2 by (unfold sortable; by rewrite Ht2).
    destruct (list_all_healthy w2 Hw2 Hs2) as (l2 & Hl2 & Hperm2 & Hsorted2).
    rewrite Ht2 in Hperm2.
    rewrite (sorted_models_unique (table w) l l2 Hnames Hu Hperm Hperm2 Hsorted Hsorted2).
    eauto.
Qed.

Lemma list_all_order_witness :
  ∃ l w',
    list_all three_clients = (Return l, w')
    ∧ table w' = table three_clients
    ∧ l ≡ₚ _to_model <$> table three_clients
    ∧ StronglySorted model_le l
    ∧ (∀ i j ri rj, (i < j)%nat → l !! i = Some ri → l !! j = Some rj →
         status rj = VStr "connected" → status ri = VStr "connected")
    ∧ (∀ i j ri rj si sj, (i < j)%nat → l !! i = Some ri → l !! j = Some rj →
         (status ri = VStr "connected" ↔ status rj = VStr "connected") →
         display_name ri = VStr si → display_name rj = VStr sj →
         String.leb si sj = true)
    ∧ (∀ w2, Forall has_name (table three_clients) → unique_names (table three_clients) →
         healthy 1 w2 → table w2 ≡ₚ table three_clients →
         ∃ w2', list_all w2 = (Return l, w2')).
Proof.
  apply (list_all_order three_clients).
  - vm_compute. constructor.
  - repeat constructor; vm_compute; eauto.
Defined.

(** ** One record per name *)

Lemma step_named_length n w o :
  (length (named n (table w)) ≤ 1)%nat → (length (named n (table (step w o))) ≤ 1)%nat.
Proof.
  intros Hlen. destruct o as [m c v k | m | | m]; simpl.
  - destruct (mark_connected_table m c v k w) as [-> | [-> | [Hm ->]]]; [done| |].
    + by rewrite named_apply_update, length_fmap by apply connected_update_display_name.
    + rewrite named_app, (named_singleton _ m) by apply connected_insert_display_name.
      destruct (decide (n = m)) as [->|]; [by rewrite Hm | by rewrite app_nil_r].
  - destruct (mark_disconnected_table m w) as [-> | [-> | [Hm ->]]]; [done| |].
    + by rewrite named_apply_update, length_fmap by apply disconnected_update_display_name.
    + rewrite named_app, (named_singleton _ m) by apply stored_disconnected_display_name.
      destruct (decide (n = m)) as [->|]; [by rewrite Hm | by rewrite app_nil_r].
  - by rewrite list_all_table.
  - by rewrite exists_table.
Qed.

Lemma run_named_length n ops w :
  (length (named n (table w)) ≤ 1)%nat → (length (named n (table (run ops w))) ≤ 1)%nat.
Proof.
  revert w. induction ops as [|o ops IH]; intros w Hlen; simpl; [done|].
  by apply IH, step_named_length.
Qed.

Lemma sort_key_frame (row row' : dict) :
  row' !! "display_name" = row !! "display_name" →
  is_Some (sort_key row) → is_Some (sort_key row').
Proof.
  unfold sort_key. intros ->.
  destruct (default (VStr "") (row !! "display_name")); eauto.
Qed.

Lemma filter_models name (t : list dict) :
  filter (λ r, display_name r = VStr name) (_to_model <$> t) = _to_model <$> named name t.
Proof.
  unfold named. induction t as [|row t IH]; [done|].
  rewrite fmap_cons, !filter_cons, IH.
  destruct (decide (matches "display_name" name row = true)) as [E|E].
  - rewrite decide_True; [done|]. apply matches_lookup in E. by apply get_lookup.
  - rewrite decide_False; [done|]. intros Hd. apply E, matches_lookup.
    simpl in Hd. unfold get in Hd. destruct (row !! "display_name"); simpl in Hd; congruence.
Qed.

(** C9: a name that has at most one stored record has at most one after
    any sequence of calls, whatever the backend's faults.  And when the
    backend answers, [mark_connected] followed by [list_all] lists exactly
    one record of that name: the one [mark_connected] returned, with the
    status connected. *)
Theorem one_record_per_name name w :
  (length (named name (table w)) ≤ 1)%nat →
  (∀ ops, (length (named name (table (run ops w))) ≤ 1)%nat)
  ∧ (∀ c v k,
       healthy 3 w → sortable (table w) →
       ∃ r w1 l w2,
         mark_connected name c v k w = (Return r, w1)
         ∧ list_all w1 = (Return l, w2)
         ∧ filter (λ x, display_name x = VStr name) l = [r]
         ∧ status r = VStr "connected").
Proof.
  intros Hlen. split; [intros ops; by apply run_named_length|].
  intros c v k Hw Hs.
  assert (healthy 2 w) as Hw2 by (eapply healthy_le; [|exact Hw]; lia).
  destruct (mark_connected_healthy name c v k w Hw2)
    as (row1 & rest1 & w1 & Hr1 & Hn1 & Hf1 & _ & _ & Hcar & _).
  pose proof (healthy_after_two 1 w w1 Hw Hf1) as Hw1.
  pose proof (step_named_length name w (MarkConnected name c v k) Hlen) as Hlen1.
  simpl in Hlen1. rewrite Hr1 in Hlen1. simpl in Hlen1. rewrite Hn1 in Hlen1.
  destruct rest1 as [|? ?]; [|simpl in Hlen1; lia].
  assert (sortable (table w1)) as Hs1.
  { destruct (mark_connected_table name c v k w) as [Ht | [Ht | [_ Ht]]];
      rewrite Hr1 in Ht; simpl in Ht; rewrite Ht.
    - done.
    - apply Forall_fmap. eapply Forall_impl; [exact Hs|]. intros row Hrow. simpl.
      eapply sort_key_frame; [|exact Hrow].
      apply apply_update_frame, connected_update_display_name.
    - apply Forall_app. split; [done|]. constructor; [|constructor].
      apply sortable_has_name. exists name. apply connected_insert_display_name. }
  destruct (list_all_healthy w1 Hw1 Hs1) as (l & Hl & Hperm & _).
  exists (_to_model row1), w1, l, (set_table (table w1) (pop_fault w1)).
  split_and!; [done..| |].
  - apply Permutation_singleton_r.
    by rewrite Hperm, filter_models, Hn1.
  - apply Forall_cons in Hcar as [(Hst & _) _]. by apply get_lookup.
Qed.

Lemma one_record_per_name_witness :
  (∀ ops, (length (named "agent1" (table (run ops one_client))) ≤ 1)%nat)
  ∧ (∃ r w1 l w2,
       mark_connected "agent1" (Some "sess-1") None None one_client = (Return r, w1)
       ∧ list_all w1 = (Return l, w2)
       ∧ filter (λ x, display_name x = VStr "agent1") l = [r]
       ∧ status r = VStr "connected").
Proof.
  assert (length (named "agent1" (table one_client)) ≤ 1)%nat as Hlen
    by (vm_compute; constructor).
  split.
  - apply (one_record_per_name "agent1" one_client Hlen).
  - apply (one_record_per_name "agent1" one_client Hlen).
    + vm_compute. constructor.
    + repeat constructor; vm_compute; eauto.
Defined.

(** ** The timestamps of stored records *)

Lemma mark_connected_clock name c v k w :
  (clock w ≤ clock (mark_connected name c v k w).2)%nat.
Proof.
  unfold mark_connected, try_except, mark_connected_try, mark_connected_except.
  unfold mbind, Py_bind, mret, Py_ret, select_eq, update_eq, insert_row, execute, _now_iso.
  simpl. destruct (hd Healthy (faults w)); simpl; try lia.
  destruct (take 1 _); simpl; destruct (hd Healthy (tail (faults w))); simpl; lia.
Qed.

Lemma mark_disconnected_clock name w :
  (clock w ≤ clock (mark_disconnected name w).2)%nat.
Proof.
  unfold mark_disconnected, try_except, mark_disconnected_try.
  unfold mbind, Py_bind, mret, Py_ret, update_eq, insert_row, execute, _now_iso.
  simpl. destruct (hd Healthy (faults w)); simpl; try lia.
  destruct (_ <$> filter _ _); simpl; [|lia].
  destruct (hd Healthy (tail (faults w))); simpl; lia.
Qed.

Lemma list_all_clock w : clock (list_all w).2 = clock w.
Proof.
  unfold list_all, try_except, list_all_try, rows_sort.
  unfold mbind, Py_bind, mret, Py_ret, select_order_desc, execute.
  destruct (hd Healthy (faults w)); simpl; [|done..].
  by destruct (mapM _ _).
Qed.

Lemma exists_clock name w : clock (exists_ name w).2 = clock w.
Proof.
  unfold exists_, try_except, exists_try.
  unfold mbind, Py_bind, mret, Py_ret, select_eq, execute.
  by destruct (hd Healthy (faults w)).
Qed.

Lemma timely_mono now now' (row : dict) : (now ≤ now')%nat → timely now row → timely now' row.
Proof. intros Hle (f & l & Hf & Hl & Hfl & Hln). exists f, l. split_and!; [done..|lia]. Qed.

Lemma timely_updated now (payload row : dict) col v :
  payload !! "first_seen" = None → payload !! "last_seen" = Some (VTime now) →
  timely now row → timely now (apply_update payload col v row).
Proof.
  intros Hpf Hpl (f & l & Hf & Hl & Hfl & Hln). unfold apply_update.
  destruct (matches col v row); [|by exists f, l].
  exists f, now. split_and!; [|by apply lookup_union_Some_l|lia|lia].
  by rewrite lookup_union_r.
Qed.

Lemma timely_step w o :
  Forall (timely (clock w)) (table w) → Forall (timely (clock (step w o))) (table (step w o)).
Proof.
  intros Ht. destruct o as [n c v k | n | | n]; simpl.
  - pose proof (mark_connected_clock n c v k w) as Hclock.
    eapply Forall_impl; [|intros row; apply (timely_mono _ _ _ Hclock)].
    destruct (mark_connected_table n c v k w) as [-> | [-> | [_ ->]]]; [done| |].
    + apply Forall_fmap. eapply Forall_impl; [exact Ht|]. intros row. simpl.
      apply timely_updated;
        [apply connected_update_first_seen | apply connected_update_last_seen].
    + apply Forall_app. split; [done|]. constructor; [|constructor].
      exists (clock w), (clock w).
      by rewrite connected_insert_first_seen, connected_insert_last_seen.
  - pose proof (mark_disconnected_clock n w) as Hclock.
    eapply Forall_impl; [|intros row; apply (timely_mono _ _ _ Hclock)].
    destruct (mark_disconnected_table n w) as [-> | [-> | [_ ->]]]; [done| |].
    + apply Forall_fmap. eapply Forall_impl; [exact Ht|]. intros row. simpl.
      apply timely_updated;
        [apply disconnected_update_first_seen | apply disconnected_update_last_seen].
    + apply Forall_app. split; [done|]. constructor; [|constructor].
      exists (clock w), (clock w).
      by rewrite stored_disconnected_first_seen, stored_disconnected_last_seen.
  - by rewrite list_all_table, list_all_clock.
  - by rewrite exists_table, exists_clock.
Qed.

Lemma timely_seen_in_order now (row : dict) : timely now row → seen_in_order (_to_model row).
Proof.
  intros (f & l & Hf & Hl & Hfl & _). unfold seen_in_order, _to_model, get. simpl.
  by rewrite Hf, Hl.
Qed.

(** On every path but the [except] branch of [mark_connected] the records
    returned are records of stored rows, first seen no later than last
    seen: the table keeps that order through every call, from the empty
    table on. *)
Lemma stored_records_seen_in_order w :
  Forall (timely (clock w)) (table w) →
  (∀ name c v k, healthy 2 w →
     ∃ r w', mark_connected name c v k w = (Return r, w') ∧ seen_in_order r)
  ∧ (∀ name, healthy 2 w →
       ∃ r w', mark_disconnected name w = (Return (Some r), w') ∧ seen_in_order r)
  ∧ (healthy 1 w → sortable (table w) →
       ∃ l w', list_all w = (Return l, w') ∧ Forall seen_in_order l).
Proof.
  intros Ht. split_and!.
  - intros name c v k Hw.
    destruct (mark_connected_healthy name c v k w Hw) as (row1 & rest1 & w1 & Hr & Hn & _).
    exists (_to_model row1), w1. split; [done|].
    pose proof (timely_step w (MarkConnected name c v k) Ht) as Ht1.
    simpl in Ht1. rewrite Hr in Ht1. simpl in Ht1.
    rewrite Forall_forall in Ht1. apply (timely_seen_in_order (clock w1)), Ht1.
    assert (row1 ∈ named name (table w1)) as Hin by (rewrite Hn; left).
    unfold named in Hin. by apply list_elem_of_filter in Hin as [_ ?].
  - intros name Hw.
    destruct (mark_disconnected_healthy name w Hw) as (row1 & rest1 & w1 & Hr & Hn & _).
    exists (_to_model row1), w1. split; [done|].
    pose proof (timely_step w (MarkDisconnected name) Ht) as Ht1.
    simpl in Ht1. rewrite Hr in Ht1. simpl in Ht1.
    rewrite Forall_forall in Ht1. apply (timely_seen_in_order (clock w1)), Ht1.
    assert (row1 ∈ named name (table w1)) as Hin by (rewrite Hn; left).
    unfold named in Hin. by apply list_elem_of_filter in Hin as [_ ?].
  - intros Hw Hs. destruct (list_all_healthy w Hw Hs) as (l & Hl & Hperm & _).
    exists l, (set_table (table w) (pop_fault w)). split; [done|].
    rewrite Hperm. apply Forall_fmap. eapply Forall_impl; [exact Ht|].
    intros row. apply timely_seen_in_order.
Qed.

(** The [except] branch reads the clock for [last_seen] first and for
    [first_seen] second: whenever the backend fails and the clock moves
    between the two readings, the record returned was first seen after it
    was last seen. *)
Lemma fallback_out_of_order name c v k w :
  backend_fails (MarkConnected name c v k) w →
  ∃ w1 r w2,
    mark_connected_try name c v k w = (Raise, w1)
    ∧ mark_connected name c v k w = (Return r, w2)
    ∧ ((0 < hd 0 (ticks w1))%nat → ¬ seen_in_order r).
Proof.
  intros Hf. destruct (mark_connected_try_raises name c v k w Hf) as (w1 & Htry & _).
  destruct (mark_connected_except_run name c v k w1) as (w2 & Hex).
  exists w1, (fallback name c v k (clock w1) (clock w1 + hd 0 (ticks w1))), w2.
  split; [done|]. split.
  - unfold mark_connected, try_except. by rewrite Htry.
  - unfold seen_in_order. simpl. lia.
Qed.

(** ** A session *)

(** Connect with a client id and a version, disconnect, list: one record,
    disconnected, with the client id and the version of the connect. *)
Example connect_disconnect_list :
  (_ ← mark_connected "agent1" (Some "sess-1") (Some "1.0") None;
   _ ← mark_disconnected "agent1";
   list_all) {| table := []; clock := 0; ticks := [1; 1]; faults := [] |}
  = (Return [ {| display_name := VStr "agent1";
                 status := VStr "disconnected";
                 client_id := VStr "sess-1";
                 last_seen := VTime 1;
                 first_seen := VTime 0;
                 last_seen_version := VStr "1.0";
                 capabilities := VDict ∅ |} ],
     {| table := [ <["status" := VStr "disconnected"]>
                   (<["last_seen" := VTime 1]>
                   (connected_insert "agent1" (VTime 0) (Some "sess-1") (Some "1.0") None)) ];
        clock := 2; ticks := []; faults := [] |}).
Proof. by vm_compute. Qed.

(** * Further properties of the four operations *)

(** ** [exists] *)

(** X1: on a backend that answers, [exists] is [True] exactly when a row
    with that [display_name] is stored, whatever its status, and the table
    is left as it was. *)
Theorem exists_iff_stored name w :
  healthy 1 w →
  ∃ b w',
    exists_ name w = (Return b, w')
    ∧ table w' = table w
    ∧ (b = true ↔ ∃ row, row ∈ table w ∧ row !! "display_name" = Some (VStr name)).
Proof.
  intros Hw. destruct (exists_healthy name w Hw) as (w' & Hex).
  eexists _, w'. split; [exact Hex|]. split.
  - pose proof (exists_table name w) as Ht. by rewrite Hex in Ht.
  - destruct (named name (table w)) as [|row rest] eqn:Hn.
    + split; [done|]. intros (row & Hin & Hrow).
      assert (row ∈ named name (table w)) as Hin'
        by (apply list_elem_of_filter; split; [by apply matches_lookup | done]).
      rewrite Hn in Hin'. by apply elem_of_nil in Hin'.
    + split; [|done]. intros _. exists row.
      assert (row ∈ named name (table w)) as Hin by (rewrite Hn; left).
      apply list_elem_of_filter in Hin as [Hm Hin]. by apply matches_lookup in Hm.
Qed.

Lemma exists_iff_stored_witness :
  ∃ b w',
    exists_ "B" three_clients = (Return b, w')
    ∧ table w' = table three_clients
    ∧ (b = true ↔ ∃ row, row ∈ table three_clients
                         ∧ row !! "display_name" = Some (VStr "B")).
Proof. apply (exists_iff_stored "B" three_clients). vm_compute. constructor. Defined.

(** ** What a call leaves alone *)

Lemma apply_update_other payload name (row : dict) :
  row !! "display_name" ≠ Some (VStr name) →
  apply_update payload "display_name" name row = row.
Proof.
  intros Hne. unfold apply_update.
  destruct (matches "display_name" name row) eqn:E; [|done].
  by apply matches_lookup in E.
Qed.

Lemma step_row_untouched w o i (row : dict) :
  (∀ m, writes_name o = Some m → row !! "display_name" ≠ Some (VStr m)) →
  table w !! i = Some row → table (step w o) !! i = Some row.
Proof.
  intros Hne Hi. destruct o as [m c v k | m | | m]; simpl.
  - specialize (Hne m eq_refl).
    destruct (mark_connected_table m c v k w) as [-> | [-> | [_ ->]]]; [done| |].
    + by rewrite list_lookup_fmap, Hi; simpl; rewrite apply_update_other.
    + by apply lookup_app_l_Some.
  - specialize (Hne m eq_refl).
    destruct (mark_disconnected_table m w) as [-> | [-> | [_ ->]]]; [done| |].
    + by rewrite list_lookup_fmap, Hi; simpl; rewrite apply_update_other.
    + by apply lookup_app_l_Some.
  - by rewrite list_all_table.
  - by rewrite exists_table.
Qed.

(** X2: a stored row is changed only by the calls that name it.  Through any
    sequence of calls, whatever the backend's faults, a row whose
    [display_name] none of the [mark_connected] and [mark_disconnected]
    calls of the sequence was given stays in its place with all its
    fields. *)
Theorem row_untouched_by_other_names ops w i (row : dict) :
  Forall (λ o, ∀ m, writes_name o = Some m → row !! "display_name" ≠ Some (VStr m)) ops →
  table w !! i = Some row →
  table (run ops w) !! i = Some row.
Proof.
  intros Hops. revert w. induction Hops as [|o ops Ho _ IH]; intros w Hi; simpl; [done|].
  by apply IH, step_row_untouched.
Qed.

Lemma row_untouched_by_other_names_witness :
  table (run [MarkDisconnected "A"; MarkConnected "B" (Some "s") None None; ListAll]
           three_clients) !! 0
  = Some (connected_insert "C" (VTime 1) None None None).
Proof.
  apply (row_untouched_by_other_names
           [MarkDisconnected "A"; MarkConnected "B" (Some "s") None None; ListAll]
           three_clients 0).
  - repeat constructor; intros m [= <-]; vm_compute; discriminate.
  - reflexivity.
Defined.

Lemma named_unmatched name m payload (t : list dict) :
  name ≠ m →
  apply_update payload "display_name" m <$> named name t = named name t.
Proof.
  intros Hne. rewrite <- (list_fmap_id (named name t)) at 2.
  apply list_fmap_ext. intros i row Hin. simpl.
  apply list_elem_of_lookup_2 in Hin. unfold named in Hin.
  apply list_elem_of_filter in Hin as [Hm _]. apply matches_lookup in Hm.
  apply apply_update_other. rewrite Hm. congruence.
Qed.

Lemma step_named_other name w o :
  writes_name o ≠ Some name → named name (table (step w o)) = named name (table w).
Proof.
  intros Hne. destruct o as [m c v k | m | | m]; simpl.
  - assert (name ≠ m) as Hnm by (simpl in Hne; congruence).
    destruct (mark_connected_table m c v k w) as [-> | [-> | [_ ->]]]; [done| |].
    + rewrite named_apply_update by apply connected_update_display_name.
      by apply named_unmatched.
    + rewrite named_app, (named_singleton _ m) by apply connected_insert_display_name.
      by rewrite decide_False, app_nil_r.
  - assert (name ≠ m) as Hnm by (simpl in Hne; congruence).
    destruct (mark_disconnected_table m w) as [-> | [-> | [_ ->]]]; [done| |].
    + rewrite named_apply_update by apply disconnected_update_display_name.
      by apply named_unmatched.
    + rewrite named_app, (named_singleton _ m) by apply stored_disconnected_display_name.
      by rewrite decide_False, app_nil_r.
  - by rewrite list_all_table.
  - by rewrite exists_table.
Qed.

Lemma run_named_other name ops w :
  Forall (λ o, writes_name o ≠ Some name) ops →
  named name (table (run ops w)) = named name (table w).
Proof.
  intros Hops. revert w. induction Hops as [|o ops Ho _ IH]; intros w; simpl; [done|].
  by rewrite IH, step_named_other.
Qed.

(** X3: a name no [mark_connected] or [mark_disconnected] call was ever
    given has no record.  Through any sequence of calls for other names
    ([list_all] and [exists] calls for any name included), whatever the
    backend's faults, the stored rows of the name are what they were; in
    particular, when there was none, [exists] still answers [False]. *)
Theorem unreferenced_name_unknown name ops w :
  Forall (λ o, writes_name o ≠ Some name) ops →
  named name (table (run ops w)) = named name (table w)
  ∧ (named name (table w) = [] → healthy 1 (run ops w) →
     ∃ w', exists_ name (run ops w) = (Return false, w')).
Proof.
  intros Hops. pose proof (run_named_other name ops w Hops) as Hn.
  split; [done|]. intros Hnil Hw.
  destruct (exists_healthy name (run ops w) Hw) as (w' & Hex).
  exists w'. by rewrite Hex, Hn, Hnil.
Qed.

Lemma unreferenced_name_unknown_witness :
  ∃ w', exists_ "agent2"
          (run [MarkConnected "agent3" None None None; Exists "agent2";
                MarkDisconnected "agent1"] one_client)
        = (Return false, w').
Proof.
  apply (unreferenced_name_unknown "agent2"
           [MarkConnected "agent3" None None None; Exists "agent2";
            MarkDisconnected "agent1"] one_client).
  - repeat constructor; vm_compute; discriminate.
  - reflexivity.
  - vm_compute. constructor.
Defined.

(** ** The size of the table *)

(** X4: no call deletes a row, and a call adds at most one.  Whatever the
    backend's faults, the table after a call is as long as before or longer
    by one; it is as long as before when the call is [list_all] or
    [exists], or names a stored record. *)
Theorem call_adds_at_most_one_row w o :
  (length (table w) ≤ length (table (step w o)))%nat
  ∧ (length (table (step w o)) ≤ S (length (table w)))%nat
  ∧ ((∀ m, writes_name o = Some m → named m (table w) ≠ []) →
     length (table (step w o)) = length (table w)).
Proof.
  destruct o as [m c v k | m | | m]; simpl.
  - destruct (mark_connected_table m c v k w) as [-> | [-> | [Hm ->]]];
      rewrite ?length_fmap, ?length_app; simpl; split_and!; try lia.
    intros H. by destruct (H m eq_refl).
  - destruct (mark_disconnected_table m w) as [-> | [-> | [Hm ->]]];
      rewrite ?length_fmap, ?length_app; simpl; split_and!; try lia.
    intros H. by destruct (H m eq_refl).
  - rewrite list_all_table. split_and!; [lia..|done].
  - rewrite exists_table. split_and!; [lia..|done].
Qed.

Lemma call_adds_at_most_one_row_witness :
  length (table (step one_client (MarkConnected "agent1" None None None)))
  = length (table one_client).
Proof.
  apply (call_adds_at_most_one_row one_client (MarkConnected "agent1" None None None)).
  intros m [= <-]. compute_done.
Defined.

(** ** A name that was written is known *)

(** X5: on a backend that answers, right after [mark_connected] or
    [mark_disconnected] for a name, [exists] answers [True] for it. *)
Theorem exists_after_write name c v k w :
  healthy 3 w →
  (∃ r w1 w2, mark_connected name c v k w = (Return r, w1)
              ∧ exists_ name w1 = (Return true, w2))
  ∧ (∃ r w1 w2, mark_disconnected name w = (Return r, w1)
                ∧ exists_ name w1 = (Return true, w2)).
Proof.
  intros Hw.
  assert (healthy 2 w) as Hw2 by (eapply healthy_le; [|exact Hw]; lia).
  split.
  - destruct (mark_connected_healthy name c v k w Hw2)
      as (row1 & rest1 & w1 & Hr & Hn & Hf & _).
    pose proof (healthy_after_two 1 w w1 Hw Hf) as Hw1.
    destruct (exists_healthy name w1 Hw1) as (w2 & Hex). rewrite Hn in Hex. eauto.
  - destruct (mark_disconnected_healthy name w Hw2)
      as (row1 & rest1 & w1 & Hr & Hn & Hf & _).
    assert (healthy 1 w1) as Hw1.
    { destruct (named name (table w)).
      - by apply (healthy_after_two 1 w w1).
      - apply healthy_S in Hw as [_ Hw]. apply (healthy_le 1) in Hw; [|lia].
        eapply healthy_faults; [|exact Hw]. by rewrite Hf. }
    destruct (exists_healthy name w1 Hw1) as (w2 & Hex). rewrite Hn in Hex. eauto.
Qed.

Lemma exists_after_write_witness :
  ∃ r w1 w2, mark_disconnected "agent9" one_client = (Return r, w1)
             ∧ exists_ "agent9" w1 = (Return true, w2).
Proof.
  apply (exists_after_write "agent9" None None None one_client).
  vm_compute. constructor.
Defined.

(** ** Invariants of the stored rows *)

Lemma run_invariant (P : World → Prop) ops w :
  (∀ w o, P w → P (step w o)) → P w → P (run ops w).
Proof.
  intros Hstep. revert w. induction ops as [|o ops IH]; intros w Hw; simpl; [done|].
  by apply IH, Hstep.
Qed.

Lemma valid_status_updated (payload row : dict) col v :
  valid_status payload → valid_status row → valid_status (apply_update payload col v row).
Proof.
  unfold valid_status, apply_update. intros Hp Hr.
  destruct (matches col v row); [|done].
  destruct Hp as [Hp|Hp]; [left|right]; by apply lookup_union_Some_l.
Qed.

Lemma step_valid_status w o :
  Forall valid_status (table w) → Forall valid_status (table (step w o)).
Proof.
  intros Ht. destruct o as [n c v k | n | | n]; simpl.
  - destruct (mark_connected_table n c v k w) as [-> | [-> | [_ ->]]]; [done| |].
    + apply Forall_fmap. eapply Forall_impl; [exact Ht|]. intros row. simpl.
      apply valid_status_updated. left. apply connected_update_status.
    + apply Forall_app. split; [done|]. constructor; [|constructor].
      left. apply connected_insert_status.
  - destruct (mark_disconnected_table n w) as [-> | [-> | [_ ->]]]; [done| |].
    + apply Forall_fmap. eapply Forall_impl; [exact Ht|]. intros row. simpl.
      apply valid_status_updated. right. apply disconnected_update_status.
    + apply Forall_app. split; [done|]. constructor; [|constructor].
      right. apply stored_disconnected_status.
  - by rewrite list_all_table.
  - by rewrite exists_table.
Qed.

(** X6: the status of every stored row stays one of connected and
    disconnected, never missing or null, through any sequence of calls and
    whatever the backend's faults. *)
Theorem status_stays_valid ops w :
  Forall valid_status (table w) → Forall valid_status (table (run ops w)).
Proof.
  revert w. induction ops as [|o ops IH]; intros w Ht; simpl; [done|].
  by apply IH, step_valid_status.
Qed.

Lemma status_stays_valid_witness :
  Forall valid_status
    (table (run [MarkConnected "D" None None None; MarkDisconnected "A"]
              {| table := table three_clients; clock := 4; ticks := [];
                 faults := [Healthy; Late; Lost] |})).
Proof.
  apply (status_stays_valid [MarkConnected "D" None None None; MarkDisconnected "A"]).
  repeat (constructor; [first [by left | by right]|]). constructor.
Defined.

(** X7: every stored row was first seen no later than it was last seen, and
    last seen no later than the clock reads: the order holds in the table
    through any sequence of calls and whatever the backend's faults. *)
Theorem stored_timestamps_in_order ops w :
  Forall (timely (clock w)) (table w) →
  Forall (timely (clock (run ops w))) (table (run ops w)).
Proof.
  intros Ht.
  apply (run_invariant (λ w, Forall (timely (clock w)) (table w))); [|done].
  intros w1 o. apply timely_step.
Qed.

Lemma stored_timestamps_in_order_witness :
  Forall (timely (clock (run [MarkConnected "A" None None None; MarkDisconnected "D"]
                           three_clients)))
    (table (run [MarkConnected "A" None None None; MarkDisconnected "D"] three_clients)).
Proof.
  apply (stored_timestamps_in_order
           [MarkConnected "A" None None None; MarkDisconnected "D"] three_clients).
  repeat constructor.
  - exists 1, 1. vm_compute. repeat split; lia.
  - exists 2, 2. vm_compute. repeat split; lia.
  - exists 3, 3. vm_compute. repeat split; lia.
Defined.

(** X8: the records of stored rows are in order.  In a table that the
    registry built (any sequence of calls, any faults, from a table whose
    rows are in order), the record [mark_connected] returns through its [try]
    branch, the record [mark_disconnected] returns and every record of
    [list_all] were first seen no later than last seen. *)
Theorem returned_records_in_order ops w :
  Forall (timely (clock w)) (table w) →
  (∀ name c v k, healthy 2 (run ops w) →
     ∃ r w', mark_connected name c v k (run ops w) = (Return r, w') ∧ seen_in_order r)
  ∧ (∀ name, healthy 2 (run ops w) →
       ∃ r w', mark_disconnected name (run ops w) = (Return (Some r), w')
               ∧ seen_in_order r)
  ∧ (healthy 1 (run ops w) → sortable (table (run ops w)) →
       ∃ l w', list_all (run ops w) = (Return l, w') ∧ Forall seen_in_order l).
Proof.
  intros Ht. apply stored_records_seen_in_order.
  apply (run_invariant (λ w, Forall (timely (clock w)) (table w))); [|done].
  intros w1 o. apply timely_step.
Qed.

Lemma returned_records_in_order_witness :
  ∃ l w', list_all (run [MarkDisconnected "A"; MarkConnected "D" None None None]
                      three_clients) = (Return l, w')
          ∧ Forall seen_in_order l.
Proof.
  apply (returned_records_in_order [MarkDisconnected "A"; MarkConnected "D" None None None]
           three_clients).
  - repeat constructor.
    + exists 1, 1. vm_compute. repeat split; lia.
    + exists 2, 2. vm_compute. repeat split; lia.
    + exists 3, 3. vm_compute. repeat split; lia.
  - vm_compute. constructor.
  - unfold sortable. compute_done.
Defined.

Lemma step_last_seen w o i (row : dict) l :
  Forall (timely (clock w)) (table w) →
  table w !! i = Some row → row !! "last_seen" = Some (VTime l) →
  ∃ row' l', table (step w o) !! i = Some row'
             ∧ row' !! "last_seen" = Some (VTime l')
             ∧ (l ≤ l')%nat
             ∧ row' !! "display_name" = row !! "display_name".
Proof.
  intros Ht Hi Hl.
  assert (l ≤ clock w)%nat as Hnow.
  { rewrite Forall_forall in Ht.
    destruct (Ht row (list_elem_of_lookup_2 _ _ _ Hi)) as (f & l0 & _ & Hl0 & _ & Hle).
    rewrite Hl in Hl0. injection Hl0 as ->. done. }
  assert (∀ payload m,
            payload !! "last_seen" = Some (VTime (clock w)) →
            payload !! "display_name" = None →
            ∃ row' l', (apply_update payload "display_name" m <$> table w) !! i = Some row'
                       ∧ row' !! "last_seen" = Some (VTime l')
                       ∧ (l ≤ l')%nat
                       ∧ row' !! "display_name" = row !! "display_name") as Hupd.
  { intros payload m Hpl Hpd. rewrite list_lookup_fmap, Hi. simpl.
    pose proof (apply_update_frame payload "display_name" m "display_name" row Hpd) as Hd.
    unfold apply_update in *. destruct (matches "display_name" m row).
    - exists (payload ∪ row), (clock w).
      split_and!; [done|by apply lookup_union_Some_l|done..].
    - exists row, l. split_and!; [done..|lia|done]. }
  destruct o as [n c v k | n | | n]; simpl.
  - destruct (mark_connected_table n c v k w) as [-> | [-> | [_ ->]]].
    + exists row, l. split_and!; [done..|lia|done].
    + apply Hupd; [apply connected_update_last_seen | apply connected_update_display_name].
    + exists row, l. split_and!; [by apply lookup_app_l_Some|done|lia|done].
  - destruct (mark_disconnected_table n w) as [-> | [-> | [_ ->]]].
    + exists row, l. split_and!; [done..|lia|done].
    + apply Hupd;
        [apply disconnected_update_last_seen | apply disconnected_update_display_name].
    + exists row, l. split_and!; [by apply lookup_app_l_Some|done|lia|done].
  - rewrite list_all_table. exists row, l. split_and!; [done..|lia|done].
  - rewrite exists_table. exists row, l. split_and!; [done..|lia|done].
Qed.

(** X9: [last_seen] never moves back.  In a table whose rows are in order,
    through any sequence of calls and whatever the backend's faults, a
    stored row keeps its place and its [display_name], and its [last_seen]
    is never earlier than it was. *)
Theorem last_seen_never_decreases ops w i (row : dict) l :
  Forall (timely (clock w)) (table w) →
  table w !! i = Some row → row !! "last_seen" = Some (VTime l) →
  ∃ row' l', table (run ops w) !! i = Some row'
             ∧ row' !! "last_seen" = Some (VTime l')
             ∧ (l ≤ l')%nat
             ∧ row' !! "display_name" = row !! "display_name".
Proof.
  revert w row l. induction ops as [|o ops IH]; intros w row l Ht Hi Hl; simpl.
  - exists row, l. split_and!; [done..|lia|done].
  - destruct (step_last_seen w o i row l Ht Hi Hl) as (row1 & l1 & Hi1 & Hl1 & Hle1 & Hd1).
    destruct (IH (step w o) row1 l1 (timely_step w o Ht) Hi1 Hl1)
      as (row2 & l2 & Hi2 & Hl2 & Hle2 & Hd2).
    exists row2, l2. split_and!; [done..|lia|congruence].
Qed.

Lemma last_seen_never_decreases_witness :
  ∃ row' l',
    table (run [MarkDisconnected "A"; MarkConnected "A" None None None] three_clients) !! 2
    = Some row'
    ∧ row' !! "last_seen" = Some (VTime l')
    ∧ (3 ≤ l')%nat
    ∧ row' !! "display_name"
      = connected_insert "A" (VTime 3) None None None !! "display_name".
Proof.
  apply (last_seen_never_decreases [MarkDisconnected "A"; MarkConnected "A" None None None]
           three_clients 2 (connected_insert "A" (VTime 3) None None None) 3).
  - repeat constructor.
    + exists 1, 1. vm_compute. repeat split; lia.
    + exists 2, 2. vm_compute. repeat split; lia.
    + exists 3, 3. vm_compute. repeat split; lia.
  - reflexivity.
  - reflexivity.
Defined.

(** ** Disconnecting a stored record, creating a connected one *)

Lemma mark_disconnected_update_path name w row rest :
  healthy 1 w → named name (table w) = row :: rest →
  mark_disconnected name w =
  (Return (Some (_to_model (disconnected_update (VTime (clock w)) ∪ row))),
   {| table := apply_update (disconnected_update (VTime (clock w))) "display_name" name
               <$> table w;
      clock := clock w + hd 0 (ticks w);
      ticks := tl (ticks w);
      faults := tl (faults w) |}).
Proof.
  intros Hw Hn. apply try_except_return.
  apply (mark_disconnected_try_update name w row rest Hw Hn).
Qed.

Lemma get_union_frame (payload row : dict) col :
  payload !! col = None → get (payload ∪ row) col = get row col.
Proof. intros H. unfold get. by rewrite lookup_union_r. Qed.

(** X10: [mark_disconnected] for a stored record, on a backend that answers.
    The record returned is disconnected and last seen now; its name, its
    client id, its [first_seen], its version and its capabilities are the
    stored ones; no row is added. *)
Theorem mark_disconnected_stored name w row rest :
  healthy 1 w → named name (table w) = row :: rest →
  ∃ r w',
    mark_disconnected name w = (Return (Some r), w')
    ∧ status r = VStr "disconnected"
    ∧ last_seen r = VTime (clock w)
    ∧ display_name r = VStr name
    ∧ client_id r = get row "client_id"
    ∧ first_seen r = get row "first_seen"
    ∧ last_seen_version r = get row "last_seen_version"
    ∧ capabilities r = get row "capabilities"
    ∧ length (table w') = length (table w).
Proof.
  intros Hw Hn.
  eexists _, _. split; [apply (mark_disconnected_update_path name w row rest Hw Hn)|].
  pose proof (named_head_matches _ _ _ _ Hn) as Hm. apply matches_lookup in Hm.
  split_and!.
  - apply get_lookup, lookup_union_Some_l, disconnected_update_status.
  - apply get_lookup, lookup_union_Some_l, disconnected_update_last_seen.
  - simpl. rewrite get_union_frame by apply disconnected_update_display_name.
    by apply get_lookup.
  - by apply get_union_frame.
  - by apply get_union_frame.
  - by apply get_union_frame.
  - by apply get_union_frame.
  - simpl. apply length_fmap.
Qed.

Lemma mark_disconnected_stored_witness :
  ∃ r w',
    mark_disconnected "A" three_clients = (Return (Some r), w')
    ∧ status r = VStr "disconnected"
    ∧ last_seen r = VTime (clock three_clients)
    ∧ display_name r = VStr "A"
    ∧ client_id r = get (connected_insert "A" (VTime 3) None None None) "client_id"
    ∧ first_seen r = get (connected_insert "A" (VTime 3) None None None) "first_seen"
    ∧ last_seen_version r
      = get (connected_insert "A" (VTime 3) None None None) "last_seen_version"
    ∧ capabilities r = get (connected_insert "A" (VTime 3) None None None) "capabilities"
    ∧ length (table w') = length (table three_clients).
Proof.
  apply (mark_disconnected_stored "A" three_clients _ []).
  - vm_compute. constructor.
  - reflexivity.
Defined.

(** X11: [mark_connected] for a name with no stored record, on a backend
    that answers.  One row is appended and the record returned is its record:
    connected, first and last seen now, with the client id and the version
    supplied ([None] when not) and the capabilities supplied (the empty dict
    when not). *)
Theorem mark_connected_unknown name c v k w :
  healthy 2 w → named name (table w) = [] →
  ∃ r w' row,
    mark_connected name c v k w = (Return r, w')
    ∧ table w' = table w ++ [row]
    ∧ _to_model row = r
    ∧ display_name r = VStr name
    ∧ status r = VStr "connected"
    ∧ first_seen r = VTime (clock w)
    ∧ last_seen r = VTime (clock w)
    ∧ client_id r = of_str c
    ∧ last_seen_version r = of_str v
    ∧ capabilities r = VDict (default ∅ k).
Proof.
  intros Hw Hn.
  pose proof (mark_connected_try_insert name c v k w Hw Hn) as Htry. simpl in Htry.
  eexists _, _, _. split; [by apply try_except_return|].
  split_and!; [done..| | | | | | |].
  - apply get_lookup, connected_insert_display_name.
  - apply get_lookup, connected_insert_status.
  - apply get_lookup, connected_insert_first_seen.
  - apply get_lookup, connected_insert_last_seen.
  - apply get_lookup, connected_insert_client_id.
  - apply get_lookup, connected_insert_version.
  - etrans; [apply get_lookup, connected_insert_capabilities|].
    destruct k as [d|]; [by rewrite or_empty_Some | done].
Qed.

Lemma mark_connected_unknown_witness :
  ∃ r w' row,
    mark_connected "D" (Some "sess-4") None None three_clients = (Return r, w')
    ∧ table w' = table three_clients ++ [row]
    ∧ _to_model row = r
    ∧ display_name r = VStr "D"
    ∧ status r = VStr "connected"
    ∧ first_seen r = VTime (clock three_clients)
    ∧ last_seen r = VTime (clock three_clients)
    ∧ client_id r = of_str (Some "sess-4")
    ∧ last_seen_version r = of_str None
    ∧ capabilities r = VDict (default ∅ None).
Proof.
  apply (mark_connected_unknown "D" (Some "sess-4") None None three_clients).
  - vm_compute. constructor.
  - reflexivity.
Defined.

(** ** A record that was returned but not stored *)

Lemma mark_connected_first_trip_fails name c v k w :
  trip_fails 0 w →
  ∃ w1, mark_connected name c v k w
        = (Return (fallback name c v k (clock w) (clock w + hd 0 (ticks w))), w1)
        ∧ table w1 = table w
        ∧ faults w1 = tl (faults w).
Proof.
  rewrite trip_fails_0. intros Hf.
  unfold mark_connected, try_except, mark_connected_try, mark_connected_except.
  unfold mbind, Py_bind, mret, Py_ret, select_eq, execute, _now_iso.
  destruct (hd Healthy (faults w)); [done| |]; eexists; split_and!; reflexivity.
Qed.

Lemma healthy_after_one n w w1 :
  healthy (S n) w → faults w1 = tl (faults w) → healthy n w1.
Proof.
  intros [_ H]%healthy_S Hf. eapply healthy_faults; [|exact H]. by rewrite Hf.
Qed.

(** X12: a record [mark_connected] returns need not be stored.  When the
    select of [mark_connected] fails for a name that has no record, the call
    still returns a connected record of that name, the table is left as it
    was, and [exists], asked next on a backend that answers again, says
    [False]. *)
Theorem fallback_record_not_stored name c v k w :
  trip_fails 0 w → ¬ trip_fails 1 w → named name (table w) = [] →
  ∃ r w1 w2,
    mark_connected name c v k w = (Return r, w1)
    ∧ display_name r = VStr name
    ∧ status r = VStr "connected"
    ∧ table w1 = table w
    ∧ exists_ name w1 = (Return false, w2).
Proof.
  intros Hf0 Hf1 Hn.
  destruct (mark_connected_first_trip_fails name c v k w Hf0) as (w1 & Hr & Ht & Hfs).
  assert (healthy 1 w1) as Hw1.
  { apply healthy_S. split.
    - rewrite Hfs. rewrite trip_fails_1 in Hf1.
      by destruct (decide (hd Healthy (tl (faults w)) = Healthy)).
    - unfold healthy. rewrite take_0. constructor. }
  destruct (exists_healthy name w1 Hw1) as (w2 & Hex).
  rewrite Ht, Hn in Hex. eauto 10.
Qed.

Lemma fallback_record_not_stored_witness :
  ∃ r w1 w2,
    mark_connected "agent7" (Some "sess-7") None None
      {| table := table one_client; clock := 2; ticks := [1; 1]; faults := [Lost] |}
    = (Return r, w1)
    ∧ display_name r = VStr "agent7"
    ∧ status r = VStr "connected"
    ∧ table w1 = table one_client
    ∧ exists_ "agent7" w1 = (Return false, w2).
Proof.
  apply (fallback_record_not_stored "agent7" (Some "sess-7") None None
           {| table := table one_client; clock := 2; ticks := [1; 1]; faults := [Lost] |}).
  - unfold trip_fails. simpl. discriminate.
  - unfold trip_fails. simpl. intros H. by apply H.
  - reflexivity.
Defined.

(** ** [exists] and [list_all] agree *)

Lemma get_VStr (row : dict) c s : get row c = VStr s → row !! c = Some (VStr s).
Proof. unfold get. destruct (row !! c); simpl; congruence. Qed.

(** X13: on a backend that answers, [exists] says [True] for a name exactly
    when [list_all] lists a record of that name. *)
Theorem exists_iff_listed name w :
  healthy 1 w → sortable (table w) →
  ∃ b w1 l w2,
    exists_ name w = (Return b, w1)
    ∧ list_all w = (Return l, w2)
    ∧ (b = true ↔ ∃ r, r ∈ l ∧ display_name r = VStr name).
Proof.
  intros Hw Hs.
  destruct (exists_healthy name w Hw) as (w1 & Hex).
  destruct (list_all_healthy w Hw Hs) as (l & Hl & Hperm & _).
  eexists _, w1, l, _. split; [exact Hex|]. split; [exact Hl|].
  destruct (named name (table w)) as [|row rest] eqn:Hn.
  - split; [done|]. intros (r & Hin & Hd). rewrite Hperm in Hin.
    apply list_elem_of_fmap in Hin as (row & -> & Hrow).
    apply get_VStr in Hd.
    assert (row ∈ named name (table w)) as Hin'
      by (apply list_elem_of_filter; split; [by apply matches_lookup | done]).
    rewrite Hn in Hin'. by apply elem_of_nil in Hin'.
  - split; [|done]. intros _.
    assert (row ∈ named name (table w)) as Hin by (rewrite Hn; left).
    apply list_elem_of_filter in Hin as [Hm Hin]. apply matches_lookup in Hm.
    exists (_to_model row). split.
    + rewrite Hperm. apply list_elem_of_fmap. eauto.
    + by apply get_lookup.
Qed.

Lemma exists_iff_listed_witness :
  ∃ b w1 l w2,
    exists_ "B" three_clients = (Return b, w1)
    ∧ list_all three_clients = (Return l, w2)
    ∧ (b = true ↔ ∃ r, r ∈ l ∧ display_name r = VStr "B").
Proof.
  apply (exists_iff_listed "B" three_clients).
  - vm_compute. constructor.
  - unfold sortable. compute_done.
Defined.

(** ** What [list_all] returns for a table the registry built *)

Lemma step_has_name w o :
  Forall has_name (table w) → Forall has_name (table (step w o)).
Proof.
  intros Ht. destruct o as [n c v k | n | | n]; simpl.
  - destruct (mark_connected_table n c v k w) as [-> | [-> | [_ ->]]]; [done| |].
    + apply Forall_fmap. eapply Forall_impl; [exact Ht|]. intros row [s Hs]. simpl.
      exists s. by rewrite apply_update_frame by apply connected_update_display_name.
    + apply Forall_app. split; [done|]. constructor; [|constructor].
      exists n. apply connected_insert_display_name.
  - destruct (mark_disconnected_table n w) as [-> | [-> | [_ ->]]]; [done| |].
    + apply Forall_fmap. eapply Forall_impl; [exact Ht|]. intros row [s Hs]. simpl.
      exists s. by rewrite apply_update_frame by apply disconnected_update_display_name.
    + apply Forall_app. split; [done|]. constructor; [|constructor].
      exists n. apply stored_disconnected_display_name.
  - by rewrite list_all_table.
  - by rewrite exists_table.
Qed.

Lemma unique_names_tail (row : dict) (t : list dict) :
  unique_names (row :: t) → unique_names t.
Proof.
  intros Hu n. specialize (Hu n). unfold named in *. rewrite filter_cons in Hu.
  destruct (decide (matches "display_name" n row = true)); simpl in Hu; lia.
Qed.

Lemma names_nodup (t : list dict) :
  Forall has_name t → unique_names t → NoDup ((λ row, get row "display_name") <$> t).
Proof.
  induction t as [|row t IH]; intros Hn Hu; [constructor|].
  apply Forall_cons in Hn as [[s Hs] Hn]. rewrite fmap_cons. constructor.
  - intros Hin. apply list_elem_of_fmap in Hin as (row' & Heq & Hin).
    rewrite (get_lookup _ _ _ Hs) in Heq. symmetry in Heq. apply get_VStr in Heq.
    specialize (Hu s). unfold named in Hu. rewrite filter_cons in Hu.
    rewrite decide_True in Hu by (by apply matches_lookup).
    assert (row' ∈ filter (λ r, matches "display_name" s r = true) t) as Hin'
      by (apply list_elem_of_filter; split; [by apply matches_lookup | done]).
    destruct (filter _ t); [by apply elem_of_nil in Hin'|]. simpl in Hu. lia.
  - apply IH; [done|]. by eapply unique_names_tail.
Qed.

(** X14: a table that only the registry wrote can always be listed.  From
    the empty table, after any sequence of calls and whatever the faults of
    the backend during them, [list_all] on a backend that answers returns
    one record per stored row; the names of the records are strings, no two
    are the same, and every status is connected or disconnected. *)
Theorem registry_table_listable ops w :
  table w = [] → healthy 1 (run ops w) →
  ∃ l w',
    list_all (run ops w) = (Return l, w')
    ∧ length l = length (table (run ops w))
    ∧ NoDup (display_name <$> l)
    ∧ Forall (λ r, ∃ s, display_name r = VStr s) l
    ∧ Forall (λ r, status r = VStr "connected" ∨ status r = VStr "disconnected") l.
Proof.
  intros Hnil Hw.
  assert (Forall has_name (table (run ops w))) as Hnames.
  { apply (run_invariant (λ w, Forall has_name (table w))).
    - intros w1 o. apply step_has_name.
    - rewrite Hnil. constructor. }
  assert (unique_names (table (run ops w))) as Hu.
  { intros n. apply run_named_length. rewrite Hnil. simpl. lia. }
  assert (Forall valid_status (table (run ops w))) as Hst.
  { apply (run_invariant (λ w, Forall valid_status (table w))).
    - intros w1 o. apply step_valid_status.
    - rewrite Hnil. constructor. }
  assert (sortable (table (run ops w))) as Hs.
  { eapply Forall_impl; [exact Hnames|]. intros row. apply sortable_has_name. }
  destruct (list_all_healthy (run ops w) Hw Hs) as (l & Hl & Hperm & _).
  eexists l, _. split; [exact Hl|]. split_and!.
  - by rewrite Hperm, length_fmap.
  - rewrite Hperm, <- list_fmap_compose. by apply names_nodup.
  - rewrite Hperm. apply Forall_fmap. eapply Forall_impl; [exact Hnames|].
    intros row [s Hs']. exists s. by apply get_lookup.
  - rewrite Hperm. apply Forall_fmap. eapply Forall_impl; [exact Hst|].
    intros row [H|H]; [left|right]; by apply get_lookup.
Qed.

Lemma registry_table_listable_witness :
  ∃ l w',
    list_all (run [MarkConnected "b" None None None; MarkDisconnected "a";
                   MarkConnected "a" (Some "s") None None]
                {| table := []; clock := 0; ticks := [1; 1; 1]; faults := [] |})
    = (Return l, w')
    ∧ length l
      = length (table (run [MarkConnected "b" None None None; MarkDisconnected "a";
                            MarkConnected "a" (Some "s") None None]
                         {| table := []; clock := 0; ticks := [1; 1; 1]; faults := [] |}))
    ∧ NoDup (display_name <$> l)
    ∧ Forall (λ r, ∃ s, display_name r = VStr s) l
    ∧ Forall (λ r, status r = VStr "connected" ∨ status r = VStr "disconnected") l.
Proof.
  apply (registry_table_listable
           [MarkConnected "b" None None None; MarkDisconnected "a";
            MarkConnected "a" (Some "s") None None]
           {| table := []; clock := 0; ticks := [1; 1; 1]; faults := [] |}).
  - reflexivity.
  - vm_compute. constructor.
Defined.

(** ** Disconnecting twice, disconnecting after a connect *)

(** X15: two successive calls of [mark_disconnected] for one name on a
    backend that answers.  Both return a disconnected record, the second
    with the [first_seen] of the first and a [last_seen] that is not
    earlier, and the second call adds no row. *)
Theorem mark_disconnected_twice name w :
  healthy 3 w →
  ∃ r1 w1 r2 w2 t1 t2,
    mark_disconnected name w = (Return (Some r1), w1)
    ∧ mark_disconnected name w1 = (Return (Some r2), w2)
    ∧ status r1 = VStr "disconnected"
    ∧ status r2 = VStr "disconnected"
    ∧ first_seen r2 = first_seen r1
    ∧ last_seen r1 = VTime t1
    ∧ last_seen r2 = VTime t2
    ∧ (t1 ≤ t2)%nat
    ∧ length (table w2) = length (table w1).
Proof.
  intros Hw.
  assert (healthy 2 w) as Hw2 by (eapply healthy_le; [|exact Hw]; lia).
  destruct (mark_disconnected_healthy name w Hw2)
    as (row1 & rest1 & w1 & Hr1 & Hn1 & Hf1 & Hc1 & _ & Hst1 & _).
  assert (healthy 1 w1) as Hw1.
  { destruct (named name (table w)).
    - by apply (healthy_after_two 1 w w1).
    - apply (healthy_after_one 1 w w1); [|done]. eapply healthy_le; [|exact Hw]. lia. }
  pose proof (mark_disconnected_update_path name w1 row1 rest1 Hw1 Hn1) as Hr2.
  apply Forall_cons in Hst1 as [[Hs1 Hl1] _].
  eexists _, w1, _, _, (clock w), (clock w1).
  split; [exact Hr1|]. split; [exact Hr2|]. split_and!.
  - by apply get_lookup.
  - apply get_lookup, lookup_union_Some_l, disconnected_update_status.
  - by apply get_union_frame.
  - by apply get_lookup.
  - apply get_lookup, lookup_union_Some_l, disconnected_update_last_seen.
  - lia.
  - simpl. apply length_fmap.
Qed.

Lemma mark_disconnected_twice_witness :
  ∃ r1 w1 r2 w2 t1 t2,
    mark_disconnected "agent5" one_client = (Return (Some r1), w1)
    ∧ mark_disconnected "agent5" w1 = (Return (Some r2), w2)
    ∧ status r1 = VStr "disconnected"
    ∧ status r2 = VStr "disconnected"
    ∧ first_seen r2 = first_seen r1
    ∧ last_seen r1 = VTime t1
    ∧ last_seen r2 = VTime t2
    ∧ (t1 ≤ t2)%nat
    ∧ length (table w2) = length (table w1).
Proof.
  apply (mark_disconnected_twice "agent5" one_client). vm_compute. constructor.
Defined.

(** X16: [mark_disconnected] after [mark_connected] for the same name, on a
    backend that answers.  The record returned is disconnected, and its
    name, client id, version, capabilities and [first_seen] are those of the
    record the connect returned: a client id and a version given at connect
    are still there after the disconnect. *)
Theorem disconnect_keeps_connect_fields name c v k w :
  healthy 3 w →
  ∃ r1 w1 r2 w2,
    mark_connected name c v k w = (Return r1, w1)
    ∧ mark_disconnected name w1 = (Return (Some r2), w2)
    ∧ status r2 = VStr "disconnected"
    ∧ display_name r2 = display_name r1
    ∧ client_id r2 = client_id r1
    ∧ last_seen_version r2 = last_seen_version r1
    ∧ capabilities r2 = capabilities r1
    ∧ first_seen r2 = first_seen r1
    ∧ (∀ a, c = Some a → client_id r2 = VStr a)
    ∧ (∀ a, v = Some a → last_seen_version r2 = VStr a).
Proof.
  intros Hw.
  assert (healthy 2 w) as Hw2 by (eapply healthy_le; [|exact Hw]; lia).
  destruct (mark_connected_healthy name c v k w Hw2)
    as (row1 & rest1 & w1 & Hr1 & Hn1 & Hf1 & _ & _ & Hcar & _).
  pose proof (healthy_after_two 1 w w1 Hw Hf1) as Hw1.
  pose proof (mark_disconnected_update_path name w1 row1 rest1 Hw1 Hn1) as Hr2.
  apply Forall_cons in Hcar as [(_ & _ & Hc & Hv & _) _].
  eexists _, w1, _, _. split; [exact Hr1|]. split; [exact Hr2|]. split_and!.
  - apply get_lookup, lookup_union_Some_l, disconnected_update_status.
  - by apply get_union_frame.
  - by apply get_union_frame.
  - by apply get_union_frame.
  - by apply get_union_frame.
  - by apply get_union_frame.
  - intros a Ha. etrans; [by apply get_union_frame|]. by apply get_lookup, Hc.
  - intros a Ha. etrans; [by apply get_union_frame|]. by apply get_lookup, Hv.
Qed.

Lemma disconnect_keeps_connect_fields_witness :
  ∃ r1 w1 r2 w2,
    mark_connected "agent1" (Some "sess-1") (Some "1.0") None one_client = (Return r1, w1)
    ∧ mark_disconnected "agent1" w1 = (Return (Some r2), w2)
    ∧ status r2 = VStr "disconnected"
    ∧ client_id r2 = VStr "sess-1"
    ∧ last_seen_version r2 = VStr "1.0".
Proof.
  destruct (disconnect_keeps_connect_fields "agent1" (Some "sess-1") (Some "1.0") None
              one_client)
    as (r1 & w1 & r2 & w2 & H1 & H2 & Hs & _ & _ & _ & _ & _ & Hc & Hv).
  { vm_compute. constructor. }
  exists r1, w1, r2, w2. split_and!; [done..| |].
  - by apply Hc.
  - by apply Hv.
Defined.

(** ** The status after a call, the round trips of a call *)

(** X17: the status of a record is that of the last call for its name.  On
    a backend that answers, after [mark_connected] every stored row of the
    name is connected and after [mark_disconnected] every stored row of the
    name is disconnected, whatever the status was before and whether or not
    a record was stored. *)
Theorem status_follows_last_call name c v k w :
  healthy 2 w →
  (∃ r w1, mark_connected name c v k w = (Return r, w1)
           ∧ named name (table w1) ≠ []
           ∧ Forall (λ row, row !! "status" = Some (VStr "connected"))
                    (named name (table w1)))
  ∧ (∃ r w1, mark_disconnected name w = (Return r, w1)
             ∧ named name (table w1) ≠ []
             ∧ Forall (λ row, row !! "status" = Some (VStr "disconnected"))
                      (named name (table w1))).
Proof.
  intros Hw. split.
  - destruct (mark_connected_healthy name c v k w Hw)
      as (row1 & rest1 & w1 & Hr & Hn & _ & _ & _ & Hcar & _).
    eexists _, w1. split; [exact Hr|]. rewrite Hn. split; [done|].
    eapply Forall_impl; [exact Hcar|]. by intros row (Hs & _).
  - destruct (mark_disconnected_healthy name w Hw)
      as (row1 & rest1 & w1 & Hr & Hn & _ & _ & _ & Hst & _).
    eexists _, w1. split; [exact Hr|]. rewrite Hn. split; [done|].
    eapply Forall_impl; [exact Hst|]. by intros row (Hs & _).
Qed.

Lemma status_follows_last_call_witness :
  ∃ r w1, mark_connected "B" None None None three_clients = (Return r, w1)
          ∧ named "B" (table w1) ≠ []
          ∧ Forall (λ row, row !! "status" = Some (VStr "connected"))
                   (named "B" (table w1)).
Proof.
  apply (status_follows_last_call "B" None None None three_clients).
  vm_compute. constructor.
Defined.

(** X18: the round trips a call makes.  [list_all] and [exists] make one.
    [mark_connected] makes two, a select and then an update or an insert,
    unless the select fails.  [mark_disconnected] makes one, its update,
    and a second one, the insert, when the update succeeded and matched no
    row. *)
Theorem call_round_trips o w :
  faults (step w o) = drop (round_trips o w) (faults w).
Proof.
  assert (∀ l : list fault, tl l = drop 1 l) as Htl by (by intros []).
  assert (∀ l : list fault, tl (tl l) = drop 2 l) as Htl2 by (by intros [|? []]).
  assert (nth 0 (faults w) Healthy = hd Healthy (faults w)) as Hnth
    by (by destruct (faults w)).
  destruct o as [n c v k | n | | n]; simpl.
  - unfold mark_connected, try_except, mark_connected_try, mark_connected_except.
    unfold mbind, Py_bind, mret, Py_ret, select_eq, update_eq, insert_row, execute, _now_iso.
    simpl. rewrite Hnth.
    destruct (hd Healthy (faults w)); simpl; [|apply Htl..].
    destruct (take 1 _); simpl; destruct (hd Healthy (tail (faults w))); apply Htl2.
  - unfold mark_disconnected, try_except, mark_disconnected_try.
    unfold mbind, Py_bind, mret, Py_ret, update_eq, insert_row, execute, _now_iso.
    simpl. rewrite Hnth. fold (named n (table w)).
    destruct (hd Healthy (faults w)); simpl; [|apply Htl..].
    destruct (named n (table w)); simpl; [|apply Htl].
    destruct (hd Healthy (tail (faults w))); apply Htl2.
  - unfold list_all, try_except, list_all_try, rows_sort.
    unfold mbind, Py_bind, mret, Py_ret, select_order_desc, execute.
    destruct (hd Healthy (faults w)); simpl; [|apply Htl..].
    destruct (mapM _ _); apply Htl.
  - unfold exists_, try_except, exists_try.
    unfold mbind, Py_bind, mret, Py_ret, select_eq, execute.
    destruct (hd Healthy (faults w)); apply Htl.
Qed.
